(** * A weighted consistent-hashing ring

    Shallow embedding of [src/consistentHashing.ts] (class
    [AdvancedConsistentHashing]) and the properties of its four operations
    [addNode], [removeNode], [getNode] and [getNodes].

    Modelling conventions:
    - a JavaScript [number] that holds a hash position, a weight, a replica
      count or a requested count is an integer, [Z]; fractional values, NaN
      and infinities are outside the model;
    - [Map<number,string>] and [Map<string,number>] are [gmap]s: the class
      only calls [get], [set], [delete] and [size], so insertion order is
      unobservable;
    - the array [sortedKeys] is a [list Z], with duplicates kept;
    - a method that mutates [this] is a function from state to state;
    - [string | undefined] is [option string];
    - the [while] loop of [getNodes] is a fuel-bounded recursion, [None]
      meaning that the fuel ran out before the loop guard became false. *)

From stdpp Require Import base gmap strings list fin_maps sorting pretty.
From Stdlib Require Import ZArith Lia Ascii.

Open Scope Z_scope.

(** ** The state of the class *)

Record AdvancedConsistentHashing := mkRing {
  ring : gmap Z string;
  sortedKeys : list Z;
  numberOfReplicas : Z;
  weights : gmap string Z;
  hashFunction : string → Z
}.

Definition constructor (numberOfReplicas : Z) (hashFunction : string → Z)
  : AdvancedConsistentHashing :=
  mkRing ∅ [] numberOfReplicas ∅ hashFunction.

(** Field updates ([this.sortedKeys = ...] and the in-place changes of
    [this.weights]). *)
Definition set_sortedKeys (s : AdvancedConsistentHashing) (l : list Z) :=
  mkRing (ring s) l (numberOfReplicas s) (weights s) (hashFunction s).

Definition set_weights (s : AdvancedConsistentHashing) (m : gmap string Z) :=
  mkRing (ring s) (sortedKeys s) (numberOfReplicas s) m (hashFunction s).

(** ** Replica keys and the two [for] loops *)

(** The template literal [`${node}:${i}`]. *)
Definition replicaKey (node : string) (i : nat) : string :=
  node +:+ ":" +:+ pretty i.

(** The values taken by [i] in [for (let i = 0; i < bound; i++)]. *)
Definition iterations (bound : Z) : list nat := seq 0 (Z.to_nat bound).

Definition replicaHash (s : AdvancedConsistentHashing) (node : string) (i : nat) : Z :=
  hashFunction s (replicaKey node i).

(** Body of the loop of [addNode]. *)
Definition addReplica (node : string) (s : AdvancedConsistentHashing) (i : nat)
  : AdvancedConsistentHashing :=
  let hashValue := replicaHash s node i in
  mkRing (<[hashValue := node]> (ring s)) (sortedKeys s ++ [hashValue])
         (numberOfReplicas s) (weights s) (hashFunction s).

(** [this.sortedKeys.sort((a, b) => a - b)]: ascending numeric order. *)
Definition sortAscending (l : list Z) : list Z := merge_sort Z.le l.

Definition addNode (s : AdvancedConsistentHashing) (node : string) (weight : Z)
  : AdvancedConsistentHashing :=
  let s1 := set_weights s (<[node := weight]> (weights s)) in
  let s2 := foldl (addReplica node) s1 (iterations (numberOfReplicas s * weight)) in
  set_sortedKeys s2 (sortAscending (sortedKeys s2)).

(** [weight: number = 1]. *)
Definition addNode_default (s : AdvancedConsistentHashing) (node : string) :=
  addNode s node 1.

(** [this.weights.get(node) || 1]: [undefined] and [0] are falsy. *)
Definition recordedWeight (s : AdvancedConsistentHashing) (node : string) : Z :=
  match weights s !! node with
  | Some w => if decide (w = 0) then 1 else w
  | None => 1
  end.

(** Body of the loop of [removeNode]. *)
Definition removeReplica (node : string) (s : AdvancedConsistentHashing) (i : nat)
  : AdvancedConsistentHashing :=
  let hashValue := replicaHash s node i in
  mkRing (delete hashValue (ring s))
         (filter (λ key, key ≠ hashValue) (sortedKeys s))
         (numberOfReplicas s) (weights s) (hashFunction s).

Definition removeNode (s : AdvancedConsistentHashing) (node : string)
  : AdvancedConsistentHashing :=
  let weight := recordedWeight s node in
  let s1 := foldl (removeReplica node) s (iterations (numberOfReplicas s * weight)) in
  set_weights s1 (delete node (weights s1)).

(** ** Lookups *)

(** [Array.prototype.findIndex], with [None] for [-1]. *)
Definition findIndex (P : Z → Prop) `{!∀ x, Decision (P x)} (l : list Z) : option nat :=
  fst <$> list_find P l.

(** The index both lookups start from: the first key [>= hashValue], or [0]
    when [findIndex] answers [-1]. *)
Definition startIndex (s : AdvancedConsistentHashing) (key : string) : nat :=
  let hashValue := hashFunction s key in
  default 0%nat (findIndex (λ k, hashValue ≤ k) (sortedKeys s)).

(** [this.ring.get(this.sortedKeys[index])]; an index out of range reads
    [undefined], which is no key of the map. *)
Definition nodeAt (s : AdvancedConsistentHashing) (index : nat) : option string :=
  sortedKeys s !! index ≫= λ k, ring s !! k.

Definition getNode (s : AdvancedConsistentHashing) (key : string) : option string :=
  if decide (size (ring s) = 0%nat) then None
  else nodeAt s (startIndex s key).

(** Body of the [while] loop of [getNodes], on the local [result]:
    [if (node && !result.includes(node)) result.push(node)].
    The empty string is falsy. *)
Definition collect (s : AdvancedConsistentHashing) (result : list string) (index : nat)
  : list string :=
  match nodeAt s index with
  | Some node =>
      if decide (node ≠ "" ∧ node ∉ result) then result ++ [node] else result
  | None => result
  end.

(** [while (result.length < count && result.length < ringSize)]. *)
Fixpoint getNodes_loop (fuel : nat) (s : AdvancedConsistentHashing) (count : Z)
    (ringSize : nat) (result : list string) (index : nat) : option (list string) :=
  if decide (Z.of_nat (length result) < count ∧ (length result < ringSize)%nat) then
    match fuel with
    | O => None
    | S fuel' =>
        getNodes_loop fuel' s count ringSize
          (collect s result index) ((index + 1) mod ringSize)%nat
    end
  else Some result.

Definition getNodes (fuel : nat) (s : AdvancedConsistentHashing) (key : string)
    (count : Z) : option (list string) :=
  let ringSize := length (sortedKeys s) in
  if decide (ringSize = 0%nat ∨ count ≤ 0) then Some []
  else getNodes_loop fuel s count ringSize [] (startIndex s key).

(** ** Histories of mutations *)

Inductive op :=
| AddNode (node : string) (weight : Z)
| RemoveNode (node : string).

Definition apply (s : AdvancedConsistentHashing) (o : op) : AdvancedConsistentHashing :=
  match o with
  | AddNode node weight => addNode s node weight
  | RemoveNode node => removeNode s node
  end.

Definition run (s : AdvancedConsistentHashing) (ops : list op) : AdvancedConsistentHashing :=
  foldl apply s ops.

(** A state is reachable when some sequence of [addNode] and [removeNode]
    calls produces it from a freshly constructed ring. *)
Definition reachable (s : AdvancedConsistentHashing) : Prop :=
  ∃ r h ops, s = run (constructor r h) ops.

(** No [addNode] of the history is applied to a node that is in the weight
    table at that moment. *)
Fixpoint freshAdds (s : AdvancedConsistentHashing) (ops : list op) : Prop :=
  match ops with
  | [] => True
  | o :: ops' =>
      match o with
      | AddNode node _ => weights s !! node = None
      | RemoveNode _ => True
      end ∧ freshAdds (apply s o) ops'
  end.

(** The replica keys [(node, i)] that an operation hashes in state [s]. *)
Definition opKeys (s : AdvancedConsistentHashing) (o : op) : list (string * nat) :=
  match o with
  | AddNode node weight =>
      (λ i, (node, i)) <$> iterations (numberOfReplicas s * weight)
  | RemoveNode node =>
      (λ i, (node, i)) <$> iterations (numberOfReplicas s * recordedWeight s node)
  end.

Fixpoint touched (s : AdvancedConsistentHashing) (ops : list op) : list (string * nat) :=
  match ops with
  | [] => []
  | o :: ops' => opKeys s o ++ touched (apply s o) ops'
  end.

(** No two different replica keys of the list hash to one position. *)
Definition collisionFree (h : string → Z) (keys : list (string * nat)) : Prop :=
  Forall (λ a, Forall (λ b,
    h (replicaKey a.1 a.2) = h (replicaKey b.1 b.2) → a = b) keys) keys.

(** ** Observations used in the statements *)

(** The positions of the ring map that are bound to [node]. *)
Definition positionsOf (s : AdvancedConsistentHashing) (node : string) : gset Z :=
  dom (filter (λ kv, kv.2 = node) (ring s)).

(** The distinct nodes that the ring map binds to some position. *)
Definition ringNodes (s : AdvancedConsistentHashing) : gset string :=
  map_img (ring s).

(** The positions that [addNode]/[removeNode] compute for [node] with a
    given loop bound. *)
Definition replicaHashes (s : AdvancedConsistentHashing) (node : string) (bound : Z)
  : list Z :=
  replicaHash s node <$> iterations bound.

(** The sorted key list and the ring map hold the same positions. *)
Definition keysMatch (s : AdvancedConsistentHashing) : Prop :=
  ∀ p, p ∈ sortedKeys s ↔ is_Some (ring s !! p).

(** ** The hash functions of the source *)

(** The code unit of a character. *)
Definition charCode (c : Ascii.ascii) : Z := Z.of_N (Ascii.N_of_ascii c).

(** The value of a character read as a digit in radix 16 by [parseInt]:
    [0-9], [a-f] and [A-F]. *)
Definition hexDigit (c : Ascii.ascii) : option Z :=
  let n := charCode c in
  if decide (48 ≤ n ≤ 57) then Some (n - 48)
  else if decide (97 ≤ n ≤ 102) then Some (n - 87)
  else if decide (65 ≤ n ≤ 70) then Some (n - 55)
  else None.

(** The white space that [parseInt] skips, among the code units below 256:
    TAB, LF, VT, FF, CR, SP and NBSP. *)
Definition isWhiteSpace (c : Ascii.ascii) : bool :=
  bool_decide (charCode c ∈ [9; 10; 11; 12; 13; 32; 160]).

Fixpoint trimStart (s : string) : string :=
  match s with
  | String c rest => if isWhiteSpace c then trimStart rest else s
  | EmptyString => s
  end.

(** The value of the longest prefix of radix-16 digits; [None] (NaN) when
    that prefix is empty. [seen] tells whether a digit was read already. *)
Fixpoint hexPrefix (acc : Z) (seen : bool) (s : string) : option Z :=
  match s with
  | String c rest =>
      match hexDigit c with
      | Some d => hexPrefix (acc * 16 + d) true rest
      | None => if seen then Some acc else None
      end
  | EmptyString => if seen then Some acc else None
  end.

(** [parseInt(s, 16)]: leading white space is skipped, then an optional
    sign, then an optional [0x] or [0X], then the digits. [None] is NaN.
    Values beyond 2^53, where a JavaScript number rounds, are outside the
    model. *)
Definition parseInt16 (s : string) : option Z :=
  let s1 := trimStart s in
  let signed :=
    match s1 with
    | String c rest =>
        if decide (charCode c = 45) then (-1, rest)
        else if decide (charCode c = 43) then (1, rest)
        else (1, s1)
    | EmptyString => (1, s1)
    end in
  let s2 :=
    match signed.2 with
    | String c0 (String c1 rest) =>
        if decide (charCode c0 = 48 ∧ (charCode c1 = 120 ∨ charCode c1 = 88))
        then rest else signed.2
    | _ => signed.2
    end in
  (λ v, signed.1 * v) <$> hexPrefix 0 false s2.

(** [parseInt(hash.substring(0, 8), 16)], the tail of both hash functions. *)
Definition hashOfDigest (hexDigest : string) : option Z :=
  parseInt16 (String.substring 0 8 hexDigest).

(** [defaultHash]: [md5Hex key] stands for
    [crypto.createHash('md5').update(key).digest('hex')]. *)
Definition defaultHash (md5Hex : string → string) (key : string) : option Z :=
  hashOfDigest (md5Hex key).

(** [customHash]: [sha256Hex key] stands for
    [crypto.createHash('sha256').update(key).digest('hex')]. *)
Definition customHash (sha256Hex : string → string) (key : string) : option Z :=
  hashOfDigest (sha256Hex key).

(** A non-empty string of radix-16 digits, as [digest('hex')] returns. *)
Fixpoint allHex (s : string) : Prop :=
  match s with
  | String c rest => is_Some (hexDigit c) ∧ allHex rest
  | EmptyString => True
  end.

Definition hexDigest (s : string) : Prop := s ≠ EmptyString ∧ allHex s.

(** The MD5 digest of the empty input, for the concrete runs. *)
Definition constantDigest (key : string) : string :=
  "d41d8cd98f00b204e9800998ecf8427e".

(** ** One revolution of the walk of [getNodes] *)

(** The indices visited by the first [ringSize] iterations of the loop of
    [getNodes]: [index = (index + 1) % ringSize] from the start index. *)
Definition walkIndices (s : AdvancedConsistentHashing) (key : string) : list nat :=
  (λ t, (startIndex s key + t) mod length (sortedKeys s))%nat
    <$> seq 0 (length (sortedKeys s)).

(** What the loop body collects over these indices when the guard never
    stops it. *)
Definition firstRevolution (s : AdvancedConsistentHashing) (key : string)
  : list string :=
  foldl (collect s) [] (walkIndices s key).

(** Every non-empty node found at index [j] is already in [result]. *)
Definition seenAt (s : AdvancedConsistentHashing) (result : list string) (j : nat) : Prop :=
  ∀ x, nodeAt s j = Some x → x ≠ ""%string → x ∈ result.

(** A string without the character [:] (code unit 58). *)
Fixpoint noColon (s : string) : Prop :=
  match s with
  | String c rest => charCode c ≠ 58 ∧ noColon rest
  | EmptyString => True
  end.

(** ** Invariants used in the proofs *)

(** Every stored position is one of the replica positions of a node of
    the weight table, computed with its recorded weight. *)
Definition owned (s : AdvancedConsistentHashing) : Prop :=
  ∀ p node, ring s !! p = Some node →
    ∃ w, weights s !! node = Some w
         ∧ p ∈ replicaHashes s node (numberOfReplicas s * w).

(** A replica key whose node is in the weight table and whose index is
    below the node's loop bound. *)
Definition liveKey (s : AdvancedConsistentHashing) (a : string * nat) : Prop :=
  ∃ w, weights s !! a.1 = Some w ∧ a.2 ∈ iterations (numberOfReplicas s * w).

(** The position of every live replica key is stored and bound to its node. *)
Definition complete (s : AdvancedConsistentHashing) : Prop :=
  ∀ a, liveKey s a → ring s !! replicaHash s a.1 a.2 = Some a.1.

(** The hash function takes different values on different keys of [P]. *)
Definition injectiveOn (h : string → Z) (P : string * nat → Prop) : Prop :=
  ∀ a b, P a → P b → h (replicaKey a.1 a.2) = h (replicaKey b.1 b.2) → a = b.

(** The number of positions that the weight table accounts for. *)
Definition expectedPositions (s : AdvancedConsistentHashing) : nat :=
  sum_list ((λ nw, Z.to_nat (numberOfReplicas s * nw.2)) <$> map_to_list (weights s)).

(** ** Two hash functions for the concrete runs *)

(** A polynomial hash reduced to 32 bits. *)
Fixpoint polyHashFrom (acc : Z) (key : string) : Z :=
  match key with
  | EmptyString => acc
  | String c rest =>
      polyHashFrom ((acc * 31 + Z.of_N (Ascii.N_of_ascii c)) mod 2 ^ 32) rest
  end.

Definition polyHash (key : string) : Z := polyHashFrom 7 key.

(** A hash with many collisions: the length of the key. *)
Definition lengthHash (key : string) : Z := Z.of_nat (String.length key).

(** The ring of the usage demo: three replicas per unit of weight. *)
Definition demoOps : list op :=
  [AddNode "NodeA" 2; AddNode "NodeB" 1; AddNode "NodeC" 3].

Definition demoRing : AdvancedConsistentHashing :=
  run (constructor 3 polyHash) demoOps.

(** The usage demo at the end of the source, for a hash function [h]:
    the three values it prints. [fuel] bounds the loop of its one
    [getNodes] call. *)
Definition demoScript (h : string → Z) (fuel : nat)
  : option string * option (list string) * option string :=
  let ch := constructor 3 h in
  let ch := addNode ch "NodeA" 2 in
  let ch := addNode ch "NodeB" 1 in
  let ch := addNode ch "NodeC" 3 in
  let printed1 := getNode ch "myKey1" in
  let printed2 := getNodes fuel ch "myKey2" 2 in
  let ch := removeNode ch "NodeB" in
  let printed3 := getNode ch "myKey1" in
  (printed1, printed2, printed3).

(** A single node with two replicas. *)
Definition soloRing : AdvancedConsistentHashing :=
  run (constructor 2 polyHash) [AddNode "A" 1].

(** A node added with weight 2, added again with weight 1, then removed. *)
Definition readdedOps : list op :=
  [AddNode "X" 2; AddNode "X" 1; RemoveNode "X"].

Definition readdedRing : AdvancedConsistentHashing :=
  run (constructor 1 polyHash) readdedOps.

(** A node added with weight 2 and added again with weight 1. *)
Definition doubledOps : list op := [AddNode "X" 2; AddNode "X" 1].

(** A node added with a negative weight. *)
Definition negativeOps : list op := [AddNode "X" (-1)].

(** A ring whose only node has the empty string for a name. *)
Definition namelessRing : AdvancedConsistentHashing :=
  run (constructor 1 polyHash) [AddNode "" 1].

(** A ring constructed with a negative replica count. *)
Definition backwardsRing : AdvancedConsistentHashing :=
  constructor (-2) polyHash.

(** One replica per unit of weight, and a node added with weight 1. *)
Definition servedRing : AdvancedConsistentHashing :=
  run (constructor 1 polyHash) [AddNode "X" 1].

(** One node on a ring whose hash function is [lengthHash]. *)
Definition lengthRing : AdvancedConsistentHashing :=
  run (constructor 1 lengthHash) [AddNode "Y" 1].

Example polyHash_sample :
  polyHash "NodeA:0" = 3093841902 ∧ lengthHash "X:0" = lengthHash "Y:0".
Proof. by vm_compute. Qed.

Example demo_run :
  getNode demoRing "myKey1" = Some "NodeA"%string
  ∧ getNodes 18 demoRing "myKey2" 2 = Some ["NodeA"; "NodeB"]%string
  ∧ getNodes 18 demoRing "myKey2" 3 = Some ["NodeA"; "NodeB"; "NodeC"]%string.
Proof. by vm_compute. Qed.

(** ** List facts *)

Lemma filter_keep_all {A} (P : A → Prop) `{!∀ x, Decision (P x)} (l : list A) :
  Forall P l → filter P l = l.
Proof.
  induction 1 as [|x l Hx _ IH]; [done|].
  by rewrite filter_cons_True, IH.
Qed.

Lemma filter_drop_all {A} (P : A → Prop) `{!∀ x, Decision (P x)} (l : list A) :
  Forall (λ x, ¬ P x) l → filter P l = [].
Proof.
  induction 1 as [|x l Hx _ IH]; [done|].
  by rewrite filter_cons_False.
Qed.

(** ** What the two loops compute *)

Section Loops.
Context (node : string).

Lemma addReplicas_frame s (l : list nat) :
  let s' := foldl (addReplica node) s l in
  numberOfReplicas s' = numberOfReplicas s
  ∧ weights s' = weights s
  ∧ hashFunction s' = hashFunction s.
Proof.
  revert s. induction l as [|i l IH]; intros s; [done|].
  cbn [foldl]. destruct (IH (addReplica node s i)) as (-> & -> & ->). done.
Qed.

Lemma addReplicas_sortedKeys s (l : list nat) :
  sortedKeys (foldl (addReplica node) s l)
  = sortedKeys s ++ (replicaHash s node <$> l).
Proof.
  revert s. induction l as [|i l IH]; intros s; cbn [foldl fmap list_fmap].
  - by rewrite app_nil_r.
  - rewrite IH. cbn. by rewrite <- app_assoc.
Qed.

Lemma addReplicas_ring s (l : list nat) p :
  ring (foldl (addReplica node) s l) !! p
  = if decide (p ∈ replicaHash s node <$> l) then Some node else ring s !! p.
Proof.
  revert s. induction l as [|i l IH]; intros s; cbn [foldl fmap list_fmap].
  - case_decide as H; [by apply elem_of_nil in H | done].
  - rewrite IH. change (replicaHash (addReplica node s i) node) with (replicaHash s node).
    cbn [ring addReplica]. rewrite lookup_insert.
    destruct (decide (p ∈ replicaHash s node <$> l)) as [Hin|Hin].
    + rewrite decide_True; [done | by right].
    + destruct (decide (replicaHash s node i = p)) as [->|Hne].
      * rewrite decide_True; [done | by left].
      * rewrite decide_False; [done|]. by intros [?|?]%elem_of_cons.
Qed.

Lemma removeReplicas_frame s (l : list nat) :
  let s' := foldl (removeReplica node) s l in
  numberOfReplicas s' = numberOfReplicas s
  ∧ weights s' = weights s
  ∧ hashFunction s' = hashFunction s.
Proof.
  revert s. induction l as [|i l IH]; intros s; [done|].
  cbn [foldl]. destruct (IH (removeReplica node s i)) as (-> & -> & ->). done.
Qed.

Lemma removeReplicas_sortedKeys s (l : list nat) :
  sortedKeys (foldl (removeReplica node) s l)
  = filter (λ k, k ∉ replicaHash s node <$> l) (sortedKeys s).
Proof.
  revert s. induction l as [|i l IH]; intros s; cbn [foldl fmap list_fmap].
  - symmetry. apply filter_keep_all, Forall_forall. intros x _. apply not_elem_of_nil.
  - rewrite IH. change (replicaHash (removeReplica node s i) node) with (replicaHash s node).
    cbn [sortedKeys removeReplica]. rewrite list_filter_filter.
    apply list_filter_iff. intros x. rewrite not_elem_of_cons. tauto.
Qed.

Lemma removeReplicas_ring s (l : list nat) p :
  ring (foldl (removeReplica node) s l) !! p
  = if decide (p ∈ replicaHash s node <$> l) then None else ring s !! p.
Proof.
  revert s. induction l as [|i l IH]; intros s; cbn [foldl fmap list_fmap].
  - case_decide as H; [by apply elem_of_nil in H | done].
  - rewrite IH. change (replicaHash (removeReplica node s i) node) with (replicaHash s node).
    cbn [ring removeReplica]. rewrite lookup_delete.
    destruct (decide (p ∈ replicaHash s node <$> l)) as [Hin|Hin].
    + rewrite decide_True; [done | by right].
    + destruct (decide (replicaHash s node i = p)) as [->|Hne].
      * rewrite decide_True; [done | by left].
      * rewrite decide_False; [done|]. by intros [?|?]%elem_of_cons.
Qed.
End Loops.

(** ** The effect of [addNode] and [removeNode] on each field *)

Lemma addNode_numberOfReplicas s node weight :
  numberOfReplicas (addNode s node weight) = numberOfReplicas s.
Proof.
  unfold addNode. cbn [numberOfReplicas set_sortedKeys].
  by destruct (addReplicas_frame node (set_weights s (<[node:=weight]> (weights s)))
    (iterations (numberOfReplicas s * weight))) as (-> & _ & _).
Qed.

Lemma addNode_hashFunction s node weight :
  hashFunction (addNode s node weight) = hashFunction s.
Proof.
  unfold addNode. cbn [hashFunction set_sortedKeys].
  by destruct (addReplicas_frame node (set_weights s (<[node:=weight]> (weights s)))
    (iterations (numberOfReplicas s * weight))) as (_ & _ & ->).
Qed.

Lemma addNode_weights s node weight :
  weights (addNode s node weight) = <[node := weight]> (weights s).
Proof.
  unfold addNode. cbn [weights set_sortedKeys].
  by destruct (addReplicas_frame node (set_weights s (<[node:=weight]> (weights s)))
    (iterations (numberOfReplicas s * weight))) as (_ & -> & _).
Qed.

Lemma addNode_sortedKeys s node weight :
  sortedKeys (addNode s node weight)
  = sortAscending (sortedKeys s
                   ++ replicaHashes s node (numberOfReplicas s * weight)).
Proof.
  unfold addNode. cbn [sortedKeys set_sortedKeys].
  by rewrite addReplicas_sortedKeys.
Qed.

Lemma addNode_ring s node weight p :
  ring (addNode s node weight) !! p
  = if decide (p ∈ replicaHashes s node (numberOfReplicas s * weight))
    then Some node else ring s !! p.
Proof.
  unfold addNode. cbn [ring set_sortedKeys].
  by rewrite addReplicas_ring.
Qed.

Lemma removeNode_numberOfReplicas s node :
  numberOfReplicas (removeNode s node) = numberOfReplicas s.
Proof.
  unfold removeNode. cbn [numberOfReplicas set_weights].
  by destruct (removeReplicas_frame node s
    (iterations (numberOfReplicas s * recordedWeight s node))) as (-> & _ & _).
Qed.

Lemma removeNode_hashFunction s node :
  hashFunction (removeNode s node) = hashFunction s.
Proof.
  unfold removeNode. cbn [hashFunction set_weights].
  by destruct (removeReplicas_frame node s
    (iterations (numberOfReplicas s * recordedWeight s node))) as (_ & _ & ->).
Qed.

Lemma removeNode_weights s node :
  weights (removeNode s node) = delete node (weights s).
Proof.
  unfold removeNode. cbn [weights set_weights].
  by destruct (removeReplicas_frame node s
    (iterations (numberOfReplicas s * recordedWeight s node))) as (_ & -> & _).
Qed.

Lemma removeNode_sortedKeys s node :
  sortedKeys (removeNode s node)
  = filter (λ k, k ∉ replicaHashes s node (numberOfReplicas s * recordedWeight s node))
           (sortedKeys s).
Proof.
  unfold removeNode. cbn [sortedKeys set_weights].
  by rewrite removeReplicas_sortedKeys.
Qed.

Lemma removeNode_ring s node p :
  ring (removeNode s node) !! p
  = if decide (p ∈ replicaHashes s node (numberOfReplicas s * recordedWeight s node))
    then None else ring s !! p.
Proof.
  unfold removeNode. cbn [ring set_weights].
  by rewrite removeReplicas_ring.
Qed.

Lemma state_eq s1 s2 :
  ring s1 = ring s2 → sortedKeys s1 = sortedKeys s2 →
  numberOfReplicas s1 = numberOfReplicas s2 → weights s1 = weights s2 →
  hashFunction s1 = hashFunction s2 → s1 = s2.
Proof. destruct s1, s2; cbn; by intros -> -> -> -> ->. Qed.

Lemma apply_numberOfReplicas s o : numberOfReplicas (apply s o) = numberOfReplicas s.
Proof. destruct o; [apply addNode_numberOfReplicas | apply removeNode_numberOfReplicas]. Qed.

Lemma apply_hashFunction s o : hashFunction (apply s o) = hashFunction s.
Proof. destruct o; [apply addNode_hashFunction | apply removeNode_hashFunction]. Qed.

Lemma run_snoc s ops o : run s (ops ++ [o]) = apply (run s ops) o.
Proof. unfold run. by rewrite foldl_app. Qed.

Lemma run_numberOfReplicas s ops : numberOfReplicas (run s ops) = numberOfReplicas s.
Proof.
  revert s. induction ops as [|o ops IH]; intros s; [done|].
  cbn. unfold run in IH. by rewrite IH, apply_numberOfReplicas.
Qed.

Lemma run_hashFunction s ops : hashFunction (run s ops) = hashFunction s.
Proof.
  revert s. induction ops as [|o ops IH]; intros s; [done|].
  cbn. unfold run in IH. by rewrite IH, apply_hashFunction.
Qed.

(** Induction over the calls that built a reachable state. *)
Lemma reachable_induction (P : AdvancedConsistentHashing → Prop) :
  (∀ r h, P (constructor r h)) →
  (∀ s node weight, reachable s → P s → P (addNode s node weight)) →
  (∀ s node, reachable s → P s → P (removeNode s node)) →
  ∀ s, reachable s → P s.
Proof.
  intros Hinit Hadd Hrem s (r & h & ops & ->).
  induction ops as [|o ops IH] using rev_ind; [apply Hinit|].
  rewrite run_snoc.
  assert (reachable (run (constructor r h) ops)) by (by exists r, h, ops).
  destruct o; cbn; auto.
Qed.

Lemma reachable_constructor r h : reachable (constructor r h).
Proof. by exists r, h, []. Qed.

Lemma reachable_apply s o : reachable s → reachable (apply s o).
Proof. intros (r & h & ops & ->). exists r, h, (ops ++ [o]). by rewrite run_snoc. Qed.

Lemma reachable_run s ops : reachable s → reachable (run s ops).
Proof.
  revert s. induction ops as [|o ops IH]; intros s Hs; [done|].
  cbn. apply IH, reachable_apply, Hs.
Qed.

(** ** Invariants of every reachable state *)

Lemma sortAscending_Sorted l : Sorted Z.le (sortAscending l).
Proof. apply (Sorted_merge_sort Z.le). Qed.

Lemma sortAscending_Permutation l : sortAscending l ≡ₚ l.
Proof. apply merge_sort_Permutation. Qed.

Lemma sortAscending_elem_of l x : x ∈ sortAscending l ↔ x ∈ l.
Proof. by rewrite sortAscending_Permutation. Qed.

Lemma sortAscending_sorted_id l : Sorted Z.le l → sortAscending l = l.
Proof.
  intros Hl. apply (Sorted_unique Z.le); [apply sortAscending_Sorted | done |].
  apply sortAscending_Permutation.
Qed.

Lemma Sorted_filter (P : Z → Prop) `{!∀ x, Decision (P x)} l :
  Sorted Z.le l → Sorted Z.le (filter P l).
Proof.
  intros Hl. apply Sorted_StronglySorted in Hl; [|apply _].
  apply StronglySorted_Sorted.
  induction Hl as [|x l Hl IH Hx]; [constructor|].
  rewrite filter_cons. case_decide; [|done].
  constructor; [done|].
  apply Forall_forall. intros y [_ Hy]%list_elem_of_filter.
  by eapply Forall_forall in Hx.
Qed.

Lemma sortedKeys_Sorted_addNode s node weight :
  Sorted Z.le (sortedKeys (addNode s node weight)).
Proof. rewrite addNode_sortedKeys. apply sortAscending_Sorted. Qed.

Lemma sortedKeys_Sorted s : reachable s → Sorted Z.le (sortedKeys s).
Proof.
  revert s. apply reachable_induction.
  - intros r h. constructor.
  - intros s node weight _ _. rewrite addNode_sortedKeys. apply sortAscending_Sorted.
  - intros s node _ IH. rewrite removeNode_sortedKeys. by apply Sorted_filter.
Qed.

Lemma keysMatch_constructor r h : keysMatch (constructor r h).
Proof.
  intros p. cbn. rewrite lookup_empty. split.
  - by intros ?%elem_of_nil.
  - by intros [? ?].
Qed.

Lemma keysMatch_addNode s node weight : keysMatch s → keysMatch (addNode s node weight).
Proof.
  intros Hs p. rewrite addNode_sortedKeys, addNode_ring, sortAscending_elem_of, elem_of_app.
  rewrite (Hs p). case_decide; [|tauto]. split; [eauto | tauto].
Qed.

Lemma keysMatch_removeNode s node : keysMatch s → keysMatch (removeNode s node).
Proof.
  intros Hs p. rewrite removeNode_sortedKeys, removeNode_ring, list_elem_of_filter.
  rewrite (Hs p). case_decide.
  - split; [tauto | by intros [? ?]].
  - tauto.
Qed.

Lemma reachable_keysMatch s : reachable s → keysMatch s.
Proof.
  revert s. apply reachable_induction;
    auto using keysMatch_constructor, keysMatch_addNode, keysMatch_removeNode.
Qed.

Lemma keysMatch_empty_iff s : keysMatch s → (ring s = ∅ ↔ sortedKeys s = []).
Proof.
  intros Hs. split.
  - intros Hr. destruct (sortedKeys s) as [|p l] eqn:E; [done|].
    assert (is_Some (ring s !! p)) as [n Hn].
    { apply Hs. rewrite E. by left. }
    rewrite Hr, lookup_empty in Hn. done.
  - intros Hl. apply map_empty. intros p.
    destruct (ring s !! p) as [n|] eqn:E; [|done].
    assert (p ∈ sortedKeys s) as Hin by (apply Hs; eauto).
    rewrite Hl in Hin. by apply elem_of_nil in Hin.
Qed.

(** ** The start index on a sorted key list *)

Lemma StronglySorted_lookup_le (l : list Z) i j x y :
  StronglySorted Z.le l → l !! i = Some x → l !! j = Some y → (i ≤ j)%nat → x ≤ y.
Proof.
  intros Hl. revert i j. induction Hl as [|a l Hl IH Ha]; intros i j Hi Hj Hij.
  - by rewrite lookup_nil in Hi.
  - destruct i as [|i], j as [|j]; cbn in Hi, Hj; simplify_eq.
    + lia.
    + eapply Forall_forall in Ha; [exact Ha|]. by eapply list_elem_of_lookup_2.
    + lia.
    + eapply IH; eauto. lia.
Qed.

(** When some key is [>= h], the start index points at the least such key. *)
Lemma startIndex_found s key i x :
  Sorted Z.le (sortedKeys s) →
  list_find (λ k, hashFunction s key ≤ k) (sortedKeys s) = Some (i, x) →
  startIndex s key = i ∧ sortedKeys s !! i = Some x ∧ hashFunction s key ≤ x
  ∧ ∀ q, q ∈ sortedKeys s → hashFunction s key ≤ q → x ≤ q.
Proof.
  intros Hsorted Hfind. unfold startIndex, findIndex. rewrite Hfind. cbn.
  apply list_find_Some in Hfind as (Hi & Hx & Hbefore).
  repeat split; [done..|].
  intros q [j Hj]%list_elem_of_lookup Hq.
  apply Sorted_StronglySorted in Hsorted; [|apply _].
  destruct (decide (j < i)%nat) as [Hlt|Hge].
  - by destruct (Hbefore j q Hj Hlt).
  - eapply StronglySorted_lookup_le; eauto. lia.
Qed.

(** When no key is [>= h], the start index is [0], the least key of all. *)
Lemma startIndex_wrap s key :
  Sorted Z.le (sortedKeys s) →
  list_find (λ k, hashFunction s key ≤ k) (sortedKeys s) = None →
  startIndex s key = 0%nat
  ∧ (∀ q, q ∈ sortedKeys s → q < hashFunction s key)
  ∧ ∀ x q, sortedKeys s !! 0%nat = Some x → q ∈ sortedKeys s → x ≤ q.
Proof.
  intros Hsorted Hfind. unfold startIndex, findIndex. rewrite Hfind. cbn.
  apply list_find_None in Hfind. split; [done|]. split.
  - intros q Hq. eapply Forall_forall in Hfind; [|exact Hq]. cbn in Hfind. lia.
  - intros x q Hx [j Hj]%list_elem_of_lookup.
    apply Sorted_StronglySorted in Hsorted; [|apply _].
    eapply StronglySorted_lookup_le; eauto. lia.
Qed.

Lemma startIndex_lt_length s key :
  sortedKeys s ≠ [] → (startIndex s key < length (sortedKeys s))%nat.
Proof.
  intros Hne. unfold startIndex, findIndex.
  destruct (list_find _ _) as [[i x]|] eqn:Hfind; cbn.
  - apply list_find_Some in Hfind as (Hi & _). by eapply lookup_lt_Some.
  - destruct (sortedKeys s); [done | cbn; lia].
Qed.

(** ** C1: the successor rule of [getNode] *)

(** C1. In a reachable ring state with at least one stored position,
    [getNode key] answers the node bound to the least stored position that
    is [>= hashFunction key]; when every stored position is below the hash,
    it answers the node bound to the least stored position of all. *)
Theorem getNode_successor_or_wrap s key :
  reachable s → ring s ≠ ∅ →
  ∃ p, is_Some (ring s !! p) ∧ getNode s key = ring s !! p
    ∧ ((hashFunction s key ≤ p
        ∧ ∀ q, is_Some (ring s !! q) → hashFunction s key ≤ q → p ≤ q)
       ∨ ((∀ q, is_Some (ring s !! q) → q < hashFunction s key)
          ∧ ∀ q, is_Some (ring s !! q) → p ≤ q)).
Proof.
  intros Hreach Hne.
  pose proof (sortedKeys_Sorted s Hreach) as Hsorted.
  pose proof (reachable_keysMatch s Hreach) as Hkeys.
  unfold getNode. rewrite decide_False by (by apply map_size_non_empty_iff).
  destruct (list_find (λ k, hashFunction s key ≤ k) (sortedKeys s))
    as [[i x]|] eqn:Hfind.
  - destruct (startIndex_found s key i x Hsorted Hfind) as (-> & Hi & Hx & Hmin).
    exists x. unfold nodeAt. rewrite Hi. cbn. split; [|split; [done|left]].
    + apply Hkeys. by eapply list_elem_of_lookup_2.
    + split; [done|]. intros q Hq. apply Hmin. by apply Hkeys.
  - destruct (startIndex_wrap s key Hsorted Hfind) as (-> & Hbelow & Hmin).
    destruct (sortedKeys s) as [|x l] eqn:E.
    { by apply keysMatch_empty_iff in E. }
    exists x. unfold nodeAt. rewrite E. cbn. split; [|split; [done|right]].
    + apply Hkeys. rewrite E. by left.
    + split.
      * intros q Hq. apply Hbelow. rewrite <- E. by apply Hkeys.
      * intros q Hq. apply (Hmin x q); [done|]. rewrite <- E. by apply Hkeys.
Qed.

Lemma demoRing_reachable : reachable demoRing.
Proof. by exists 3, polyHash, demoOps. Qed.

Lemma demoRing_nonempty : ring demoRing ≠ ∅.
Proof.
  intros H. assert (ring demoRing !! 3093841902 = None) as E by (by rewrite H).
  vm_compute in E. discriminate.
Qed.

Lemma getNode_successor_or_wrap_witness :
  reachable demoRing ∧ ring demoRing ≠ ∅ ∧
  ∃ p, is_Some (ring demoRing !! p) ∧ getNode demoRing "myKey1" = ring demoRing !! p
    ∧ ((hashFunction demoRing "myKey1" ≤ p
        ∧ ∀ q, is_Some (ring demoRing !! q) → hashFunction demoRing "myKey1" ≤ q → p ≤ q)
       ∨ ((∀ q, is_Some (ring demoRing !! q) → q < hashFunction demoRing "myKey1")
          ∧ ∀ q, is_Some (ring demoRing !! q) → p ≤ q)).
Proof.
  split; [exact demoRing_reachable|]. split; [exact demoRing_nonempty|].
  exact (getNode_successor_or_wrap demoRing "myKey1" demoRing_reachable demoRing_nonempty).
Defined.

(** ** C10: the sorted key list and the ring map hold the same positions *)

(** C10. In every reachable state a hash value occurs in [sortedKeys]
    exactly when it is a key of the ring map, so the map is empty exactly
    when the list is; [addNode] and [removeNode] both keep it so. *)
Theorem sortedKeys_agree_with_ring s :
  reachable s →
  (∀ p, p ∈ sortedKeys s ↔ is_Some (ring s !! p))
  ∧ (ring s = ∅ ↔ sortedKeys s = [])
  ∧ (∀ node weight, keysMatch (addNode s node weight))
  ∧ (∀ node, keysMatch (removeNode s node)).
Proof.
  intros Hreach. pose proof (reachable_keysMatch s Hreach) as Hkeys.
  split; [exact Hkeys|]. split; [by apply keysMatch_empty_iff|].
  split; intros; [by apply keysMatch_addNode | by apply keysMatch_removeNode].
Qed.

Lemma sortedKeys_agree_with_ring_witness :
  reachable demoRing ∧
  ((∀ p, p ∈ sortedKeys demoRing ↔ is_Some (ring demoRing !! p))
   ∧ (ring demoRing = ∅ ↔ sortedKeys demoRing = [])
   ∧ (∀ node weight, keysMatch (addNode demoRing node weight))
   ∧ (∀ node, keysMatch (removeNode demoRing node))).
Proof.
  split; [exact demoRing_reachable|].
  exact (sortedKeys_agree_with_ring demoRing demoRing_reachable).
Defined.

(** ** Ownership of positions when no present node is added again *)

Lemma replicaHashes_ext s s' node bound :
  hashFunction s' = hashFunction s →
  replicaHashes s' node bound = replicaHashes s node bound.
Proof. intros Hh. unfold replicaHashes, replicaHash. by rewrite Hh. Qed.

Lemma replicaHashes_nonpositive s node bound :
  bound ≤ 0 → replicaHashes s node bound = [].
Proof.
  intros Hb. unfold replicaHashes, iterations.
  by replace (Z.to_nat bound) with 0%nat by lia.
Qed.

Lemma recordedWeight_present s node w :
  weights s !! node = Some w → w ≠ 0 → recordedWeight s node = w.
Proof. intros Hw Hne. unfold recordedWeight. rewrite Hw. by rewrite decide_False. Qed.

Lemma owned_constructor r h : owned (constructor r h).
Proof. intros p node H. cbn in H. by rewrite lookup_empty in H. Qed.

Lemma owned_addNode s node weight :
  weights s !! node = None → owned s → owned (addNode s node weight).
Proof.
  intros Habsent Hs p n. rewrite addNode_ring, addNode_weights, addNode_numberOfReplicas.
  setoid_rewrite (replicaHashes_ext s (addNode s node weight));
    [|apply addNode_hashFunction].
  case_decide as Hin.
  - intros [= <-]. exists weight. by rewrite lookup_insert_eq.
  - intros Hp. destruct (Hs p n Hp) as (w & Hw & Hpw).
    exists w. split; [|done]. rewrite lookup_insert_ne; [done|]. congruence.
Qed.

Lemma owned_removeNode s node : owned s → owned (removeNode s node).
Proof.
  intros Hs p n. rewrite removeNode_ring, removeNode_weights, removeNode_numberOfReplicas.
  setoid_rewrite (replicaHashes_ext s (removeNode s node));
    [|apply removeNode_hashFunction].
  case_decide as Hin; [done|].
  intros Hp. destruct (Hs p n Hp) as (w & Hw & Hpw).
  exists w. split; [|done]. rewrite lookup_delete_ne; [done|].
  intros <-. destruct (decide (w = 0)) as [->|Hne].
  - rewrite replicaHashes_nonpositive in Hpw by lia. by apply elem_of_nil in Hpw.
  - by rewrite (recordedWeight_present s node w) in Hin.
Qed.

Lemma owned_run ops : ∀ s, owned s → freshAdds s ops → owned (run s ops).
Proof.
  induction ops as [|o ops IH]; intros s Hs Hfresh; [done|].
  destruct Hfresh as [Ho Hrest]. cbn. apply IH; [|done].
  destruct o; cbn; [by apply owned_addNode | by apply owned_removeNode].
Qed.

Lemma getNode_is_Some s key :
  reachable s → ring s ≠ ∅ →
  ∃ p node, ring s !! p = Some node ∧ getNode s key = Some node.
Proof.
  intros Hreach Hne.
  pose proof (reachable_keysMatch s Hreach) as Hkeys.
  assert (sortedKeys s ≠ []) as Hlist by (by rewrite <- keysMatch_empty_iff).
  destruct (lookup_lt_is_Some_2 (sortedKeys s) (startIndex s key)) as [p Hp];
    [by apply startIndex_lt_length|].
  assert (is_Some (ring s !! p)) as [node Hnode]
    by (by eapply Hkeys, list_elem_of_lookup_2).
  exists p, node. split; [done|].
  unfold getNode, nodeAt. rewrite decide_False by (by apply map_size_non_empty_iff).
  by rewrite Hp.
Qed.

(** ** C2: coverage *)

(** C2, as amended. On a ring with at least one stored position, built
    from a fresh ring by any calls of [addNode] and [removeNode],
    [getNode] never answers [undefined]; when no call of [addNode] was
    made on a node that was in the weight table at that moment, the node
    it answers is in the weight table. *)
Theorem getNode_coverage r h ops key :
  ring (run (constructor r h) ops) ≠ ∅ →
  ∃ node, getNode (run (constructor r h) ops) key = Some node
    ∧ (freshAdds (constructor r h) ops →
       is_Some (weights (run (constructor r h) ops) !! node)).
Proof.
  intros Hne. set (s := run (constructor r h) ops) in *.
  assert (reachable s) as Hreach by (by exists r, h, ops).
  destruct (getNode_is_Some s key Hreach Hne) as (p & node & Hp & Hget).
  exists node. split; [done|]. intros Hfresh.
  destruct (owned_run ops (constructor r h) (owned_constructor r h) Hfresh p node Hp)
    as (w & Hw & _).
  by exists w.
Qed.

Example demoOps_freshAdds : freshAdds (constructor 3 polyHash) demoOps.
Proof. by vm_compute. Qed.

Lemma getNode_coverage_witness :
  ring (run (constructor 3 polyHash) demoOps) ≠ ∅
  ∧ freshAdds (constructor 3 polyHash) demoOps
  ∧ ∃ node, getNode (run (constructor 3 polyHash) demoOps) "myKey1" = Some node
      ∧ is_Some (weights (run (constructor 3 polyHash) demoOps) !! node).
Proof.
  split; [exact demoRing_nonempty|]. split; [exact demoOps_freshAdds|].
  destruct (getNode_coverage 3 polyHash demoOps "myKey1" demoRing_nonempty)
    as (node & Hget & Hpresent).
  exists node. split; [exact Hget | exact (Hpresent demoOps_freshAdds)].
Defined.

(** C2 fails as stated: after [addNode("X", 2)], [addNode("X", 1)] and
    [removeNode("X")] the position of replica [X:1] is still stored, so
    [getNode] answers ["X"], which is no longer in the weight table. *)
Lemma getNode_coverage_counterexample :
  reachable readdedRing ∧ ring readdedRing ≠ ∅
  ∧ getNode readdedRing "k" = Some "X"%string
  ∧ weights readdedRing !! "X"%string = None.
Proof.
  split; [by exists 1, polyHash, readdedOps|]. split.
  - intros H. assert (ring readdedRing !! 294952 = None) as E by (by rewrite H).
    vm_compute in E. discriminate.
  - by vm_compute.
Qed.

(** ** The loop of [getNodes] *)

Lemma nodeAt_stored s index node :
  nodeAt s index = Some node → ∃ p, ring s !! p = Some node.
Proof.
  unfold nodeAt. destruct (sortedKeys s !! index) as [p|]; [|done].
  cbn. eauto.
Qed.

Lemma collect_cases s result index :
  collect s result index = result
  ∨ ∃ node, collect s result index = result ++ [node]
            ∧ (node ∉ result) ∧ nodeAt s index = Some node.
Proof.
  unfold collect. destruct (nodeAt s index) as [node|]; [|by left].
  case_decide as H; [|by left]. right. exists node. tauto.
Qed.

Lemma collect_NoDup s result index : NoDup result → NoDup (collect s result index).
Proof.
  intros Hnd. destruct (collect_cases s result index) as [->|(node & -> & Hnew & _)];
    [done|].
  apply NoDup_app. split; [done|]. split; [|apply NoDup_singleton].
  intros x Hx ->%list_elem_of_singleton. done.
Qed.

Lemma collect_length s result index :
  (length (collect s result index) ≤ S (length result))%nat.
Proof.
  destruct (collect_cases s result index) as [->|(node & -> & _)]; [lia|].
  rewrite length_app. cbn. lia.
Qed.

Lemma collect_elem_of s result index x :
  x ∈ collect s result index → x ∈ result ∨ ∃ p, ring s !! p = Some x.
Proof.
  destruct (collect_cases s result index) as [->|(node & -> & _ & Hnode)]; [by left|].
  intros [?| ->%list_elem_of_singleton]%elem_of_app; [by left|].
  right. by eapply nodeAt_stored.
Qed.

(** What holds of the result whenever the loop exits. *)
Lemma getNodes_loop_result fuel s count ringSize :
  ∀ result index res,
    getNodes_loop fuel s count ringSize result index = Some res →
    NoDup result → Z.of_nat (length result) ≤ count →
    (∀ x, x ∈ result → ∃ p, ring s !! p = Some x) →
    NoDup res ∧ Z.of_nat (length res) ≤ count
    ∧ ∀ x, x ∈ res → ∃ p, ring s !! p = Some x.
Proof.
  induction fuel as [|fuel IH]; intros result index res; cbn [getNodes_loop];
    case_decide as Hguard; try done.
  - by intros [= <-].
  - intros Hres Hnd Hlen Hin. eapply IH; [exact Hres | by apply collect_NoDup | |].
    + pose proof (collect_length s result index). lia.
    + intros x [?|?]%collect_elem_of; auto.
  - by intros [= <-].
Qed.

Lemma getNodes_result fuel s key count res :
  getNodes fuel s key count = Some res →
  NoDup res ∧ Z.of_nat (length res) ≤ Z.max 0 count
  ∧ ∀ x, x ∈ res → ∃ p, ring s !! p = Some x.
Proof.
  unfold getNodes. case_decide as Hguard.
  - intros [= <-]. split; [constructor|]. split; [cbn; lia|].
    by intros x ?%elem_of_nil.
  - intros Hres. apply getNodes_loop_result in Hres as (Hnd & Hlen & Hin).
    + split; [done|]. split; [lia | done].
    + constructor.
    + cbn. lia.
    + by intros x ?%elem_of_nil.
Qed.

(** When the ring map binds fewer distinct nodes than both [count] and the
    number of keys, the loop guard can never become false. *)
Lemma getNodes_loop_stuck s count ringSize (nodes : list string) :
  (∀ p x, ring s !! p = Some x → x ∈ nodes) →
  Z.of_nat (length nodes) < count → (length nodes < ringSize)%nat →
  ∀ fuel result index,
    NoDup result → (∀ x, x ∈ result → x ∈ nodes) →
    getNodes_loop fuel s count ringSize result index = None.
Proof.
  intros Hnodes Hcount Hsize. induction fuel as [|fuel IH]; intros result index Hnd Hsub.
  all: assert (length result ≤ length nodes)%nat
    by (by apply submseteq_length, NoDup_submseteq).
  all: cbn [getNodes_loop]; rewrite decide_True by lia.
  { done. }
  apply IH; [by apply collect_NoDup|].
  intros x [?|[p Hp]]%collect_elem_of; eauto.
Qed.

(** ** When the loop of [getNodes] does stop *)

Lemma collect_keeps s result index x : x ∈ result → x ∈ collect s result index.
Proof.
  intros Hx. destruct (collect_cases s result index) as [->|(node & -> & _)]; [done|].
  apply elem_of_app. by left.
Qed.

Lemma collect_adds s result index x :
  nodeAt s index = Some x → x ≠ ""%string → x ∈ collect s result index.
Proof.
  intros Hx Hne. unfold collect. rewrite Hx.
  destruct (decide (x ∈ result)) as [Hin|Hin].
  - by rewrite decide_False by tauto.
  - rewrite decide_True by tauto. apply elem_of_app. right. by left.
Qed.

(** If every node of [nodes] is either collected already or met within
    the next [k] positions, and [nodes] is long enough to falsify the
    guard, then [k] iterations suffice. *)
Lemma getNodes_loop_returns s count ringSize (nodes : list string) :
  (0 < ringSize)%nat → NoDup nodes → (∀ x, x ∈ nodes → x ≠ ""%string) →
  (count ≤ Z.of_nat (length nodes) ∨ (ringSize ≤ length nodes)%nat) →
  ∀ k result index,
    (index < ringSize)%nat →
    (∀ x, x ∈ nodes →
       x ∈ result ∨ ∃ t, (t < k)%nat ∧ nodeAt s ((index + t) mod ringSize)%nat = Some x) →
    ∃ res, getNodes_loop k s count ringSize result index = Some res.
Proof.
  intros Hsize Hnd Hne Hlong. induction k as [|k IH]; intros result index Hindex Hseen.
  - assert (∀ x, x ∈ nodes → x ∈ result) as Hall.
    { intros x Hx. destruct (Hseen x Hx) as [?|(t & Ht & _)]; [done | lia]. }
    assert (length nodes ≤ length result)%nat
      by (by apply submseteq_length, NoDup_submseteq).
    cbn [getNodes_loop]. rewrite decide_False by lia. eauto.
  - cbn [getNodes_loop]. case_decide as Hguard; [|eauto].
    apply IH.
    + apply Nat.mod_upper_bound. lia.
    + intros x Hx. destruct (Hseen x Hx) as [Hin|(t & Ht & Hat)].
      * left. by apply collect_keeps.
      * destruct t as [|t].
        -- left. rewrite Nat.add_0_r, Nat.mod_small in Hat by done.
           apply collect_adds; auto.
        -- right. exists t. split; [lia|].
           rewrite Nat.Div0.add_mod_idemp_l.
           by replace (index + 1 + t)%nat with (index + S t)%nat by lia.
Qed.

(** [getNodes] returns within one revolution when the key list reaches at
    least [min count ringSize] distinct non-empty nodes. *)
Lemma getNodes_returns s key count (nodes : list string) :
  NoDup nodes →
  (∀ x, x ∈ nodes →
     x ≠ ""%string ∧ ∃ j, (j < length (sortedKeys s))%nat ∧ nodeAt s j = Some x) →
  (count ≤ Z.of_nat (length nodes) ∨ (length (sortedKeys s) ≤ length nodes)%nat) →
  ∃ res, getNodes (length (sortedKeys s)) s key count = Some res.
Proof.
  intros Hnd Hnodes Hlong. unfold getNodes. case_decide as Hguard; [eauto|].
  assert (sortedKeys s ≠ []) as Hne.
  { intros E. apply Hguard. left. by rewrite E. }
  pose proof (startIndex_lt_length s key Hne) as Hstart.
  apply (getNodes_loop_returns s count _ nodes); try done.
  - lia.
  - intros x Hx. by apply Hnodes.
  - intros x Hx. right. destruct (Hnodes x Hx) as (_ & j & Hj & Hat).
    set (n := length (sortedKeys s)) in *. set (i := startIndex s key) in *.
    exists ((j + n - i) mod n)%nat. split; [apply Nat.mod_upper_bound; lia|].
    rewrite Nat.Div0.add_mod_idemp_r.
    replace (i + (j + n - i))%nat with (j + 1 * n)%nat by lia.
    by rewrite Nat.Div0.mod_add, Nat.mod_small.
Qed.

(** ** C3: the loop of [getNodes] need not stop *)

Lemma soloRing_nodes p x : ring soloRing !! p = Some x → x ∈ ["A"%string].
Proof.
  assert (map_Forall (λ _ x, x ∈ ["A"%string]) (ring soloRing)) as H.
  { apply (bool_decide_unpack _). by vm_compute. }
  apply H.
Qed.

(** C3, evaluated where it fails. On a ring with two replicas holding the
    single node ["A"], a request for two nodes never leaves the loop: the
    guard compares the number of collected nodes, which stays at one, with
    the number of positions, which is two. No amount of fuel yields a
    result. *)
Theorem getNodes_never_returns : ∀ fuel, getNodes fuel soloRing "k" 2 = None.
Proof.
  intros fuel. unfold getNodes.
  assert (length (sortedKeys soloRing) = 2%nat) as -> by (by vm_compute).
  rewrite decide_False by lia.
  apply (getNodes_loop_stuck soloRing 2 2 ["A"%string]).
  - apply soloRing_nodes.
  - cbn. lia.
  - cbn. lia.
  - constructor.
  - by intros x ?%elem_of_nil.
Qed.

(** ** C6: what [getNodes] returns when it returns *)

Lemma NoDup_present_length (res : list string) (m : gmap string Z) :
  NoDup res → (∀ x, x ∈ res → is_Some (m !! x)) → (length res ≤ size m)%nat.
Proof.
  intros Hnd Hin. rewrite <- size_dom. unfold size, set_size. cbn.
  apply submseteq_length, NoDup_submseteq; [done|].
  intros x Hx. apply elem_of_elements, elem_of_dom. by apply Hin.
Qed.

(** C6, as amended. Whenever [getNodes key count] returns on a ring built
    from a fresh one, the result has at most [max count 0] entries, its
    entries are pairwise distinct, each of them is bound to a stored
    position, and there are no more of them than distinct nodes bound in
    the ring map. When no call of [addNode] was made on a node that was in
    the weight table at that moment, every entry is in the weight table
    and the result is no longer than the weight table. *)
Theorem getNodes_redundancy r h ops fuel key count res :
  getNodes fuel (run (constructor r h) ops) key count = Some res →
  Z.of_nat (length res) ≤ Z.max 0 count
  ∧ NoDup res
  ∧ (∀ x, x ∈ res → ∃ p, ring (run (constructor r h) ops) !! p = Some x)
  ∧ (length res ≤ size (ringNodes (run (constructor r h) ops)))%nat
  ∧ (freshAdds (constructor r h) ops →
     (∀ x, x ∈ res → is_Some (weights (run (constructor r h) ops) !! x))
     ∧ (length res ≤ size (weights (run (constructor r h) ops)))%nat).
Proof.
  intros Hres. apply getNodes_result in Hres as (Hnd & Hlen & Hin).
  split; [done|]. split; [done|]. split; [done|]. split.
  { unfold size, set_size. cbn. apply submseteq_length, NoDup_submseteq; [done|].
    intros x Hx. apply elem_of_elements, elem_of_map_img. destruct (Hin x Hx); eauto. }
  intros Hfresh.
  assert (∀ x, x ∈ res → is_Some (weights (run (constructor r h) ops) !! x))
    as Hpresent.
  { intros x [p Hp]%Hin.
    destruct (owned_run ops (constructor r h) (owned_constructor r h) Hfresh p x Hp)
      as (w & Hw & _).
    by exists w. }
  split; [done|]. by apply NoDup_present_length.
Qed.

Lemma getNodes_redundancy_witness :
  getNodes 18 (run (constructor 3 polyHash) demoOps) "myKey2" 2
    = Some ["NodeA"; "NodeB"]%string
  ∧ freshAdds (constructor 3 polyHash) demoOps
  ∧ Z.of_nat (length ["NodeA"; "NodeB"]%string) ≤ Z.max 0 2
  ∧ NoDup ["NodeA"; "NodeB"]%string
  ∧ (∀ x, x ∈ ["NodeA"; "NodeB"]%string →
       is_Some (weights (run (constructor 3 polyHash) demoOps) !! x))
  ∧ (length ["NodeA"; "NodeB"]%string
     ≤ size (weights (run (constructor 3 polyHash) demoOps)))%nat.
Proof.
  assert (getNodes 18 (run (constructor 3 polyHash) demoOps) "myKey2" 2
          = Some ["NodeA"; "NodeB"]%string) as Hrun by (by vm_compute).
  split; [exact Hrun|]. split; [exact demoOps_freshAdds|].
  destruct (getNodes_redundancy 3 polyHash demoOps 18 "myKey2" 2 _ Hrun)
    as (Hlen & Hnd & _ & _ & Hpresent).
  destruct (Hpresent demoOps_freshAdds) as [Hin Hsize].
  repeat split; assumption.
Defined.

(** C6 fails as stated on two counts. On the ring left by
    [addNode("X", 2)], [addNode("X", 1)], [removeNode("X")], the call
    [getNodes("k", 1)] returns [["X"]]: its entry is not in the weight
    table, and it is longer than the (empty) weight table. And a negative
    [count] returns the empty list, whose length is not at most [count]. *)
Lemma getNodes_redundancy_counterexample :
  reachable readdedRing
  ∧ getNodes 1 readdedRing "k" 1 = Some ["X"%string]
  ∧ weights readdedRing !! "X"%string = None
  ∧ size (weights readdedRing) = 0%nat
  ∧ getNodes 0 demoRing "k" (-1) = Some []
  ∧ ¬ (Z.of_nat (length (@nil string)) ≤ -1).
Proof.
  split; [by exists 1, polyHash, readdedOps|].
  repeat split; by vm_compute.
Qed.

(** ** Lookups only read the ring map, the key list and the hash function *)

Lemma getNodes_loop_ext fuel s1 s2 count ringSize :
  ring s1 = ring s2 → sortedKeys s1 = sortedKeys s2 →
  ∀ result index,
    getNodes_loop fuel s1 count ringSize result index
    = getNodes_loop fuel s2 count ringSize result index.
Proof.
  intros Hr Hk. induction fuel as [|fuel IH]; intros result index; [done|].
  cbn [getNodes_loop]. case_decide; [|done].
  unfold collect, nodeAt. rewrite Hr, Hk. apply IH.
Qed.

Lemma lookups_ext s1 s2 :
  ring s1 = ring s2 → sortedKeys s1 = sortedKeys s2 →
  hashFunction s1 = hashFunction s2 →
  (∀ key, getNode s1 key = getNode s2 key)
  ∧ (∀ fuel key count, getNodes fuel s1 key count = getNodes fuel s2 key count).
Proof.
  intros Hr Hk Hh. split.
  - intros key. unfold getNode, nodeAt, startIndex. by rewrite Hr, Hk, Hh.
  - intros fuel key count. unfold getNodes, startIndex. rewrite Hk, Hh.
    case_decide; [done|]. by apply getNodes_loop_ext.
Qed.

(** ** C9: a weight that is zero or negative *)

Lemma addNode_no_iterations s node weight :
  numberOfReplicas s * weight ≤ 0 → Sorted Z.le (sortedKeys s) →
  ring (addNode s node weight) = ring s
  ∧ sortedKeys (addNode s node weight) = sortedKeys s.
Proof.
  intros Hbound Hsorted. split.
  - apply map_eq. intros p. rewrite addNode_ring.
    rewrite replicaHashes_nonpositive by done.
    case_decide as H; [by apply elem_of_nil in H | done].
  - rewrite addNode_sortedKeys, replicaHashes_nonpositive by done.
    rewrite app_nil_r. by apply sortAscending_sorted_id.
Qed.

Lemma getNode_stored s key node :
  getNode s key = Some node → ∃ p, ring s !! p = Some node.
Proof. unfold getNode. case_decide; [done|]. apply nodeAt_stored. Qed.

(** C9, as amended. On a reachable ring whose replica count is not
    negative, [addNode] with a weight [<= 0] records the weight in the
    weight table and inserts no position: the ring map and the key list
    are unchanged, so every [getNode] and [getNodes] answers as before the
    call, and a node that held no position before the call is never
    answered by a lookup after it. The call is an ordinary state change,
    not an error. *)
Theorem addNode_nonpositive_weight s node weight :
  reachable s → 0 ≤ numberOfReplicas s → weight ≤ 0 →
  weights (addNode s node weight) = <[node := weight]> (weights s)
  ∧ ring (addNode s node weight) = ring s
  ∧ sortedKeys (addNode s node weight) = sortedKeys s
  ∧ (∀ key, getNode (addNode s node weight) key = getNode s key)
  ∧ (∀ fuel key count,
       getNodes fuel (addNode s node weight) key count = getNodes fuel s key count)
  ∧ ((∀ p, ring s !! p ≠ Some node) →
     (∀ key, getNode (addNode s node weight) key ≠ Some node)
     ∧ (∀ fuel key count res,
          getNodes fuel (addNode s node weight) key count = Some res → node ∉ res)).
Proof.
  intros Hreach Hr Hw.
  destruct (addNode_no_iterations s node weight) as [Hring Hkeys];
    [nia | by apply sortedKeys_Sorted |].
  destruct (lookups_ext (addNode s node weight) s Hring Hkeys
              (addNode_hashFunction s node weight)) as [Hget Hgets].
  split; [apply addNode_weights|]. split; [done|]. split; [done|].
  split; [done|]. split; [done|].
  intros Hnone. split.
  - intros key [p Hp]%getNode_stored. rewrite Hring in Hp. by apply (Hnone p).
  - intros fuel key count res (_ & _ & Hin)%getNodes_result Hnode.
    destruct (Hin node Hnode) as [p Hp]. rewrite Hring in Hp. by apply (Hnone p).
Qed.

Lemma addNode_nonpositive_weight_witness :
  reachable demoRing ∧ 0 ≤ numberOfReplicas demoRing ∧ -1 ≤ 0
  ∧ weights (addNode demoRing "NodeD" (-1)) = <["NodeD"%string := -1]> (weights demoRing)
  ∧ ring (addNode demoRing "NodeD" (-1)) = ring demoRing
  ∧ sortedKeys (addNode demoRing "NodeD" (-1)) = sortedKeys demoRing
  ∧ (∀ key, getNode (addNode demoRing "NodeD" (-1)) key = getNode demoRing key)
  ∧ (∀ fuel key count,
       getNodes fuel (addNode demoRing "NodeD" (-1)) key count
       = getNodes fuel demoRing key count)
  ∧ ((∀ p, ring demoRing !! p ≠ Some "NodeD"%string) →
     (∀ key, getNode (addNode demoRing "NodeD" (-1)) key ≠ Some "NodeD"%string)
     ∧ (∀ fuel key count res,
          getNodes fuel (addNode demoRing "NodeD" (-1)) key count = Some res →
          "NodeD"%string ∉ res)).
Proof.
  assert (0 ≤ numberOfReplicas demoRing) as Hr by (vm_compute; discriminate).
  assert (-1 ≤ 0) as Hw by lia.
  split; [exact demoRing_reachable|]. split; [exact Hr|]. split; [exact Hw|].
  exact (addNode_nonpositive_weight demoRing "NodeD" (-1) demoRing_reachable Hr Hw).
Defined.

(** C9 fails as stated on two counts. On a ring constructed with the
    replica count [-2], [addNode("X", -1)] runs its loop twice: two
    positions are inserted and [getNode] answers ["X"]. And on a ring
    with one replica where ["X"] was added with weight 1,
    [addNode("X", 0)] records weight 0 for ["X"], which keeps its position
    and is still answered by [getNode] and [getNodes]. *)
Lemma addNode_nonpositive_weight_counterexample :
  reachable backwardsRing
  ∧ -1 ≤ 0
  ∧ size (ring (addNode backwardsRing "X" (-1))) = 2%nat
  ∧ getNode (addNode backwardsRing "X" (-1)) "k" = Some "X"%string
  ∧ reachable servedRing
  ∧ 0 ≤ numberOfReplicas servedRing
  ∧ weights (addNode servedRing "X" 0) !! "X"%string = Some 0
  ∧ getNode (addNode servedRing "X" 0) "k" = Some "X"%string
  ∧ getNodes 1 (addNode servedRing "X" 0) "k" 1 = Some ["X"%string].
Proof.
  split; [by exists (-2), polyHash, []|]. split; [lia|].
  split; [by vm_compute|]. split; [by vm_compute|].
  split; [by exists 1, polyHash, [AddNode "X" 1]|].
  repeat split; by vm_compute.
Qed.

(** ** C8: removing a node that is not in the weight table *)

Lemma removeNode_untouched s node :
  keysMatch s →
  (∀ p, p ∈ replicaHashes s node (numberOfReplicas s * recordedWeight s node) →
        ring s !! p = None) →
  ring (removeNode s node) = ring s
  ∧ sortedKeys (removeNode s node) = sortedKeys s.
Proof.
  intros Hkeys Hfresh. split.
  - apply map_eq. intros p. rewrite removeNode_ring.
    case_decide as H; [by rewrite Hfresh | done].
  - rewrite removeNode_sortedKeys. apply filter_keep_all, Forall_forall.
    intros p [x Hp]%Hkeys Hin. by rewrite Hfresh in Hp.
Qed.

(** C8, as amended. In a reachable state, when [node] is not in the weight
    table and none of the positions of its first [numberOfReplicas] replica
    keys is stored in the ring, [removeNode node] changes nothing: the ring
    map, the sorted key list and the weight table are the same afterwards. *)
Theorem removeNode_absent_noop s node :
  reachable s → weights s !! node = None →
  (∀ p, p ∈ replicaHashes s node (numberOfReplicas s * 1) → ring s !! p = None) →
  removeNode s node = s.
Proof.
  intros Hreach Habsent Hfresh.
  assert (recordedWeight s node = 1) as Hw by (unfold recordedWeight; by rewrite Habsent).
  destruct (removeNode_untouched s node) as [Hring Hkeys].
  { by apply reachable_keysMatch. }
  { by rewrite Hw. }
  apply state_eq; [done | done | apply removeNode_numberOfReplicas | |
                   apply removeNode_hashFunction].
  rewrite removeNode_weights. by apply delete_id.
Qed.

Lemma demoRing_NodeD_fresh p :
  p ∈ replicaHashes demoRing "NodeD" (numberOfReplicas demoRing * 1) →
  ring demoRing !! p = None.
Proof.
  assert (Forall (λ p, ring demoRing !! p = None)
            (replicaHashes demoRing "NodeD" (numberOfReplicas demoRing * 1))) as H.
  { apply (bool_decide_unpack _). by vm_compute. }
  intros Hp. by eapply Forall_forall in H.
Qed.

Lemma removeNode_absent_noop_witness :
  reachable demoRing ∧ weights demoRing !! "NodeD"%string = None
  ∧ (∀ p, p ∈ replicaHashes demoRing "NodeD" (numberOfReplicas demoRing * 1) →
          ring demoRing !! p = None)
  ∧ removeNode demoRing "NodeD" = demoRing.
Proof.
  assert (weights demoRing !! "NodeD"%string = None) as Habsent by (by vm_compute).
  split; [exact demoRing_reachable|]. split; [exact Habsent|].
  split; [exact demoRing_NodeD_fresh|].
  exact (removeNode_absent_noop demoRing "NodeD" demoRing_reachable Habsent
           demoRing_NodeD_fresh).
Defined.

(** C8 fails as stated when a replica key of the absent node hashes to a
    stored position. With [lengthHash], the keys ["X:0"] and ["Y:0"] share
    position 3: on a ring holding only ["Y"], [removeNode("X")] deletes the
    position of ["Y"] from the ring map and from the key list, although
    ["X"] was never added. *)
Lemma removeNode_absent_noop_counterexample :
  reachable lengthRing
  ∧ weights lengthRing !! "X"%string = None
  ∧ ring lengthRing !! 3 = Some "Y"%string
  ∧ sortedKeys lengthRing = [3]
  ∧ ring (removeNode lengthRing "X") !! 3 = None
  ∧ sortedKeys (removeNode lengthRing "X") = [].
Proof.
  split; [by exists 1, lengthHash, [AddNode "Y" 1]|].
  repeat split; by vm_compute.
Qed.

(** ** C7: adding a node that is already present *)

Lemma addNode_sortedKeys_Permutation s node weight :
  sortedKeys (addNode s node weight)
  ≡ₚ sortedKeys s ++ replicaHashes s node (numberOfReplicas s * weight).
Proof. rewrite addNode_sortedKeys. apply sortAscending_Permutation. Qed.

Lemma replicaHashes_length s node bound :
  length (replicaHashes s node bound) = Z.to_nat bound.
Proof. unfold replicaHashes, iterations. by rewrite length_fmap, length_seq. Qed.

Lemma addNode_sortedKeys_length s node weight :
  length (sortedKeys (addNode s node weight))
  = (length (sortedKeys s) + Z.to_nat (numberOfReplicas s * weight))%nat.
Proof.
  rewrite addNode_sortedKeys_Permutation, length_app. by rewrite replicaHashes_length.
Qed.

(** With no iteration of the loop there is nothing to add: the second
    call then changes nothing. *)
Lemma addNode_again_no_iterations s node weight :
  numberOfReplicas s * weight ≤ 0 →
  addNode (addNode s node weight) node weight = addNode s node weight.
Proof.
  intros Hbound.
  destruct (addNode_no_iterations (addNode s node weight) node weight) as [Hring Hkeys].
  { by rewrite addNode_numberOfReplicas. }
  { apply sortedKeys_Sorted_addNode. }
  apply state_eq; [done | done | apply addNode_numberOfReplicas | |
                   apply addNode_hashFunction].
  rewrite !addNode_weights. apply insert_insert_eq.
Qed.

(** C7, as amended. [addNode node weight], on a node that is already in
    the weight table as on any other, binds in the ring map every
    position of the replica keys [node:0 .. node:(replicas*weight - 1)]
    to [node] and keeps every other stored position as it was (those
    bound to [node] stay bound to it): afterwards the stored positions
    are the old ones and the hashed ones. It overwrites the recorded
    weight and appends the hashed positions to the key list on top of the
    entries already there. The call is not idempotent exactly when its
    loop runs, that is when [replicas * weight > 0]: doing it twice then
    leaves a longer key list than doing it once; when
    [replicas * weight <= 0] the second call changes nothing. *)
Theorem addNode_again_accumulates s node weight :
  (∀ p, p ∈ replicaHashes s node (numberOfReplicas s * weight) →
        ring (addNode s node weight) !! p = Some node)
  ∧ (∀ p, ring s !! p = Some node → ring (addNode s node weight) !! p = Some node)
  ∧ (∀ p, p ∉ replicaHashes s node (numberOfReplicas s * weight) →
          ring (addNode s node weight) !! p = ring s !! p)
  ∧ (∀ p, is_Some (ring (addNode s node weight) !! p)
          ↔ is_Some (ring s !! p)
            ∨ p ∈ replicaHashes s node (numberOfReplicas s * weight))
  ∧ weights (addNode s node weight) !! node = Some weight
  ∧ sortedKeys (addNode s node weight)
    ≡ₚ sortedKeys s ++ replicaHashes s node (numberOfReplicas s * weight)
  ∧ (0 < numberOfReplicas s * weight →
     length (sortedKeys (addNode (addNode s node weight) node weight))
     = (length (sortedKeys (addNode s node weight))
        + Z.to_nat (numberOfReplicas s * weight))%nat
     ∧ addNode (addNode s node weight) node weight ≠ addNode s node weight)
  ∧ (numberOfReplicas s * weight ≤ 0 →
     addNode (addNode s node weight) node weight = addNode s node weight).
Proof.
  assert (length (sortedKeys (addNode (addNode s node weight) node weight))
          = (length (sortedKeys (addNode s node weight))
             + Z.to_nat (numberOfReplicas s * weight))%nat) as Hlen.
  { by rewrite (addNode_sortedKeys_length (addNode s node weight)),
      addNode_numberOfReplicas. }
  split; [|split; [|split; [|split; [|split; [|split; [|split]]]]]].
  - intros p Hp. rewrite addNode_ring. by rewrite decide_True.
  - intros p Hp. rewrite addNode_ring. by case_decide.
  - intros p Hp. rewrite addNode_ring. by rewrite decide_False.
  - intros p. rewrite addNode_ring.
    destruct (decide (p ∈ replicaHashes s node (numberOfReplicas s * weight)));
      [split; eauto | tauto].
  - rewrite addNode_weights. apply lookup_insert_eq.
  - apply addNode_sortedKeys_Permutation.
  - intros Hpos. split; [exact Hlen|]. intros Heq. rewrite Heq in Hlen. lia.
  - apply addNode_again_no_iterations.
Qed.

Lemma addNode_again_accumulates_witness :
  is_Some (weights demoRing !! "NodeB"%string)
  ∧ 0 < numberOfReplicas demoRing * 1
  ∧ (∀ p, p ∈ replicaHashes demoRing "NodeB" (numberOfReplicas demoRing * 1) →
          ring (addNode demoRing "NodeB" 1) !! p = Some "NodeB"%string)
  ∧ addNode (addNode demoRing "NodeB" 1) "NodeB" 1 ≠ addNode demoRing "NodeB" 1.
Proof.
  assert (is_Some (weights demoRing !! "NodeB"%string)) as Hpresent
    by (exists 1; by vm_compute).
  assert (0 < numberOfReplicas demoRing * 1) as Hpos by (by vm_compute).
  split; [exact Hpresent|]. split; [exact Hpos|].
  destruct (addNode_again_accumulates demoRing "NodeB" 1)
    as (Hbound & _ & _ & _ & _ & _ & Htwice & _).
  split; [exact Hbound | exact (proj2 (Htwice Hpos))].
Defined.

(** C7 fails as stated when the loop does not run. ["NodeB"] is in the
    weight table of the demo ring; [addNode("NodeB", 0)] adds no position
    (the ring map and the key list are unchanged) and doing it twice
    leaves the same state as doing it once. *)
Lemma addNode_again_accumulates_counterexample :
  reachable demoRing
  ∧ is_Some (weights demoRing !! "NodeB"%string)
  ∧ ring (addNode demoRing "NodeB" 0) = ring demoRing
  ∧ sortedKeys (addNode demoRing "NodeB" 0) = sortedKeys demoRing
  ∧ addNode (addNode demoRing "NodeB" 0) "NodeB" 0 = addNode demoRing "NodeB" 0.
Proof.
  assert (numberOfReplicas demoRing * 0 ≤ 0) as Hbound by lia.
  split; [exact demoRing_reachable|].
  split; [exists 1; by vm_compute|].
  destruct (addNode_no_iterations demoRing "NodeB" 0 Hbound
              (sortedKeys_Sorted demoRing demoRing_reachable)) as [Hring Hkeys].
  split; [exact Hring|]. split; [exact Hkeys|].
  by apply addNode_again_no_iterations.
Qed.

(** ** C5: adding a node and removing it at once *)

Lemma recordedWeight_addNode s node weight :
  recordedWeight (addNode s node weight) node = if decide (weight = 0) then 1 else weight.
Proof. unfold recordedWeight. by rewrite addNode_weights, lookup_insert_eq. Qed.

Lemma replicaHashes_subset_fallback s node (r weight : Z) p :
  p ∈ replicaHashes s node (r * weight) →
  p ∈ replicaHashes s node (r * (if decide (weight = 0) then 1 else weight)).
Proof.
  case_decide as H; [|done]. subst weight.
  rewrite replicaHashes_nonpositive by lia. by intros ?%elem_of_nil.
Qed.

Lemma addNode_removeNode_restores s node weight :
  Sorted Z.le (sortedKeys s) → keysMatch s → weights s !! node = None →
  (∀ p, p ∈ replicaHashes s node
              (numberOfReplicas s * (if decide (weight = 0) then 1 else weight)) →
        ring s !! p = None) →
  removeNode (addNode s node weight) node = s.
Proof.
  intros Hsorted Hkeys Habsent Hfresh.
  set (s1 := addNode s node weight).
  assert (∀ p, p ∈ replicaHashes s node (numberOfReplicas s * weight) →
               p ∈ replicaHashes s node
                     (numberOfReplicas s * (if decide (weight = 0) then 1 else weight)))
    as Hsub by (intros p; apply replicaHashes_subset_fallback).
  assert (replicaHashes s1 node (numberOfReplicas s1 * recordedWeight s1 node)
          = replicaHashes s node
              (numberOfReplicas s * (if decide (weight = 0) then 1 else weight))) as Hrem.
  { unfold s1. rewrite recordedWeight_addNode, addNode_numberOfReplicas.
    apply replicaHashes_ext, addNode_hashFunction. }
  revert Hfresh Hsub Hrem.
  generalize (replicaHashes s node
    (numberOfReplicas s * (if decide (weight = 0) then 1 else weight))).
  intros removed Hfresh Hsub Hrem.
  apply state_eq.
  - apply map_eq. intros p. rewrite removeNode_ring, Hrem. unfold s1.
    rewrite addNode_ring. destruct (decide (p ∈ removed)) as [Hin|Hin].
    + by rewrite Hfresh.
    + rewrite decide_False; [done|]. intros Hp. by apply Hin, Hsub.
  - rewrite removeNode_sortedKeys, Hrem. unfold s1.
    apply (Sorted_unique Z.le); [apply Sorted_filter, sortedKeys_Sorted_addNode | done |].
    rewrite addNode_sortedKeys_Permutation, filter_app.
    rewrite (filter_keep_all _ (sortedKeys s)), (filter_drop_all _ (replicaHashes _ _ _)).
    + by rewrite app_nil_r.
    + apply Forall_forall. intros p Hp Hnot. by apply Hnot, Hsub.
    + apply Forall_forall. intros p [x Hp]%Hkeys Hin. by rewrite Hfresh in Hp.
  - unfold s1. by rewrite removeNode_numberOfReplicas, addNode_numberOfReplicas.
  - unfold s1. rewrite removeNode_weights, addNode_weights. by apply delete_insert_id.
  - unfold s1. by rewrite removeNode_hashFunction, addNode_hashFunction.
Qed.

(** C5, as amended. Let [S] be a reachable state in which [X] is not in
    the weight table and in which none of the positions that the two calls
    compute for [X] is stored in the ring (no collision with a stored
    position, and no position left over from an earlier life of [X]).
    Then [addNode(X, w)] followed at once by [removeNode(X)] gives back
    [S] itself, so [getNode] and [getNodes] answer as in [S] for every key
    and count. *)
Theorem addNode_removeNode_roundtrip s node weight :
  reachable s → weights s !! node = None →
  (∀ p, p ∈ replicaHashes s node
              (numberOfReplicas s * (if decide (weight = 0) then 1 else weight)) →
        ring s !! p = None) →
  removeNode (addNode s node weight) node = s
  ∧ (∀ key, getNode (removeNode (addNode s node weight) node) key = getNode s key)
  ∧ (∀ fuel key count,
       getNodes fuel (removeNode (addNode s node weight) node) key count
       = getNodes fuel s key count).
Proof.
  intros Hreach Habsent Hfresh.
  assert (removeNode (addNode s node weight) node = s) as ->; [|done].
  apply addNode_removeNode_restores;
    auto using sortedKeys_Sorted, reachable_keysMatch.
Qed.

Lemma demoRing_NodeD_fresh2 p :
  p ∈ replicaHashes demoRing "NodeD"
        (numberOfReplicas demoRing * (if decide (2 = 0) then 1 else 2)) →
  ring demoRing !! p = None.
Proof.
  assert (Forall (λ p, ring demoRing !! p = None)
            (replicaHashes demoRing "NodeD"
               (numberOfReplicas demoRing * (if decide (2 = 0) then 1 else 2)))) as H.
  { apply (bool_decide_unpack _). by vm_compute. }
  intros Hp. by eapply Forall_forall in H.
Qed.

Lemma addNode_removeNode_roundtrip_witness :
  reachable demoRing ∧ weights demoRing !! "NodeD"%string = None
  ∧ (∀ p, p ∈ replicaHashes demoRing "NodeD"
                (numberOfReplicas demoRing * (if decide (2 = 0) then 1 else 2)) →
          ring demoRing !! p = None)
  ∧ removeNode (addNode demoRing "NodeD" 2) "NodeD" = demoRing.
Proof.
  assert (weights demoRing !! "NodeD"%string = None) as Habsent by (by vm_compute).
  split; [exact demoRing_reachable|]. split; [exact Habsent|].
  split; [exact demoRing_NodeD_fresh2|].
  exact (proj1 (addNode_removeNode_roundtrip demoRing "NodeD" 2 demoRing_reachable
                  Habsent demoRing_NodeD_fresh2)).
Defined.

(** C5 fails as stated. On the ring left by [addNode("X", 2)],
    [addNode("X", 1)], [removeNode("X")], the node ["X"] is not in the
    weight table and no two replica keys collide, yet the position of
    replica [X:1] is still stored. Adding ["X"] with weight 2 and removing
    it deletes that position: [getNode("k")] answered ["X"] before the two
    calls and answers [undefined] after them. *)
Lemma addNode_removeNode_roundtrip_counterexample :
  reachable readdedRing
  ∧ weights readdedRing !! "X"%string = None
  ∧ collisionFree polyHash
      (touched (constructor 1 polyHash) (readdedOps ++ [AddNode "X" 2; RemoveNode "X"]))
  ∧ getNode readdedRing "k" = Some "X"%string
  ∧ getNode (removeNode (addNode readdedRing "X" 2) "X") "k" = None.
Proof.
  split; [by exists 1, polyHash, readdedOps|].
  split; [by vm_compute|]. split; [|by vm_compute].
  apply (bool_decide_unpack _). by vm_compute.
Qed.

(** ** Replica counts when no two replica keys collide *)

Lemma collisionFree_injectiveOn h keys :
  collisionFree h keys ↔ injectiveOn h (λ a, a ∈ keys).
Proof.
  unfold collisionFree, injectiveOn. rewrite Forall_forall.
  setoid_rewrite Forall_forall. split; intros H a b Ha Hb; by apply H.
Qed.

Lemma elem_of_replicaHashes s node bound p :
  p ∈ replicaHashes s node bound
  ↔ ∃ i, p = replicaHash s node i ∧ i ∈ iterations bound.
Proof. unfold replicaHashes. apply list_elem_of_fmap. Qed.

Lemma elem_of_opKeys_add s node weight a :
  a ∈ opKeys s (AddNode node weight)
  ↔ a.1 = node ∧ a.2 ∈ iterations (numberOfReplicas s * weight).
Proof.
  cbn. rewrite list_elem_of_fmap. split.
  - by intros (i & -> & Hi).
  - intros [<- Hi]. exists a.2. by destruct a.
Qed.

Lemma elem_of_opKeys_remove s node a :
  a ∈ opKeys s (RemoveNode node)
  ↔ a.1 = node ∧ a.2 ∈ iterations (numberOfReplicas s * recordedWeight s node).
Proof.
  cbn. rewrite list_elem_of_fmap. split.
  - by intros (i & -> & Hi).
  - intros [<- Hi]. exists a.2. by destruct a.
Qed.

Lemma liveKey_apply s o a : liveKey (apply s o) a → liveKey s a ∨ a ∈ opKeys s o.
Proof.
  intros (w & Hw & Hi). rewrite apply_numberOfReplicas in Hi. destruct o as [node weight|node].
  - cbn [apply] in Hw. rewrite addNode_weights in Hw.
    destruct (decide (node = a.1)) as [->|Hne].
    + rewrite lookup_insert_eq in Hw. injection Hw as <-.
      right. by apply elem_of_opKeys_add.
    + rewrite lookup_insert_ne in Hw by done. left. by exists w.
  - cbn [apply] in Hw. rewrite removeNode_weights in Hw.
    apply lookup_delete_Some in Hw as [_ Hw]. left. by exists w.
Qed.

Lemma liveKey_constructor r h a : ¬ liveKey (constructor r h) a.
Proof. intros (w & Hw & _). cbn in Hw. by rewrite lookup_empty in Hw. Qed.

Lemma complete_constructor r h : complete (constructor r h).
Proof. intros a Ha. by apply liveKey_constructor in Ha. Qed.

Lemma complete_addNode s node weight :
  complete s →
  injectiveOn (hashFunction s) (λ a, liveKey s a ∨ a ∈ opKeys s (AddNode node weight)) →
  complete (addNode s node weight).
Proof.
  intros Hs Hinj a Hlive.
  assert (replicaHash (addNode s node weight) a.1 a.2 = replicaHash s a.1 a.2) as ->
    by (unfold replicaHash; by rewrite addNode_hashFunction).
  rewrite addNode_ring.
  destruct (liveKey_apply s (AddNode node weight) a Hlive) as [Ha|Ha].
  - case_decide as Hin; [|by apply Hs].
    apply elem_of_replicaHashes in Hin as (i & Heq & Hi).
    assert (a = (node, i)) as ->; [|done].
    apply Hinj; [by left | right; by apply elem_of_opKeys_add | done].
  - apply elem_of_opKeys_add in Ha as [<- Hi].
    rewrite decide_True; [done|]. apply elem_of_replicaHashes. eauto.
Qed.

Lemma complete_removeNode s node :
  complete s →
  injectiveOn (hashFunction s) (λ a, liveKey s a ∨ a ∈ opKeys s (RemoveNode node)) →
  complete (removeNode s node).
Proof.
  intros Hs Hinj a Hlive.
  assert (replicaHash (removeNode s node) a.1 a.2 = replicaHash s a.1 a.2) as ->
    by (unfold replicaHash; by rewrite removeNode_hashFunction).
  rewrite removeNode_ring.
  assert (a.1 ≠ node) as Hne.
  { destruct Hlive as (w & Hw & _). rewrite removeNode_weights in Hw.
    apply lookup_delete_Some in Hw as [? _]. congruence. }
  destruct (liveKey_apply s (RemoveNode node) a Hlive) as [Ha|Ha].
  - case_decide as Hin; [|by apply Hs].
    apply elem_of_replicaHashes in Hin as (i & Heq & Hi).
    assert (a = (node, i)) as ->; [|done].
    apply Hinj; [by left | right; by apply elem_of_opKeys_remove | done].
  - by apply elem_of_opKeys_remove in Ha as [? _].
Qed.

Lemma exact_run ops : ∀ s,
  owned s → complete s → freshAdds s ops →
  injectiveOn (hashFunction s) (λ a, liveKey s a ∨ a ∈ touched s ops) →
  owned (run s ops) ∧ complete (run s ops)
  ∧ injectiveOn (hashFunction s) (liveKey (run s ops)).
Proof.
  induction ops as [|o ops IH]; intros s Hown Hcomp Hfresh Hinj.
  - split; [done|]. split; [done|]. intros a b Ha Hb. apply Hinj; by left.
  - destruct Hfresh as [Ho Hrest]. cbn [run foldl].
    assert (injectiveOn (hashFunction s) (λ a, liveKey s a ∨ a ∈ opKeys s o)) as Hstep.
    { intros a b Ha Hb. apply Hinj; cbn [touched]; rewrite elem_of_app; tauto. }
    rewrite <- (apply_hashFunction s o). apply IH.
    + destruct o; cbn; [by apply owned_addNode | by apply owned_removeNode].
    + destruct o; cbn; [by apply complete_addNode | by apply complete_removeNode].
    + done.
    + rewrite apply_hashFunction. intros a b Ha Hb.
      apply Hinj; cbn [touched]; rewrite elem_of_app.
      * destruct Ha as [[?|?]%liveKey_apply|?]; tauto.
      * destruct Hb as [[?|?]%liveKey_apply|?]; tauto.
Qed.

Lemma positionsOf_exact s node w :
  owned s → complete s → weights s !! node = Some w →
  positionsOf s node = list_to_set (replicaHashes s node (numberOfReplicas s * w)).
Proof.
  intros Hown Hcomp Hw. apply set_eq. intros p.
  unfold positionsOf. rewrite elem_of_dom, elem_of_list_to_set. split.
  - intros [x [Hp Hx]%map_lookup_filter_Some]. cbn in Hx. subst x.
    destruct (Hown p node Hp) as (w' & Hw' & Hin). congruence.
  - intros (i & -> & Hi)%elem_of_replicaHashes. exists node.
    apply map_lookup_filter_Some. split; [|done].
    apply (Hcomp (node, i)). by exists w.
Qed.

Lemma replicaHashes_NoDup s node w :
  weights s !! node = Some w → injectiveOn (hashFunction s) (liveKey s) →
  NoDup (replicaHashes s node (numberOfReplicas s * w)).
Proof.
  intros Hw Hinj. unfold replicaHashes. apply NoDup_fmap_2_strong; [|apply NoDup_seq].
  intros i j Hi Hj Heq.
  assert ((node, i) = (node, j)) as E; [|by injection E].
  apply Hinj; [by exists w | by exists w | done].
Qed.

Lemma positionsOf_size s node w :
  owned s → complete s → injectiveOn (hashFunction s) (liveKey s) →
  weights s !! node = Some w →
  size (positionsOf s node) = Z.to_nat (numberOfReplicas s * w).
Proof.
  intros Hown Hcomp Hinj Hw. rewrite (positionsOf_exact s node w) by done.
  rewrite size_list_to_set by (by apply replicaHashes_NoDup).
  apply replicaHashes_length.
Qed.

(** The size of a map is the sum, over the values it may hold, of the
    number of keys bound to each value. *)
Lemma size_by_value (nodes : list string) : ∀ m : gmap Z string,
  NoDup nodes → (∀ p x, m !! p = Some x → x ∈ nodes) →
  size m = sum_list ((λ n, size (filter (λ kv, kv.2 = n) m)) <$> nodes).
Proof.
  induction nodes as [|n nodes IH]; intros m Hnd Hin.
  - cbn. apply map_size_empty_iff, map_empty. intros p.
    destruct (m !! p) as [x|] eqn:E; [|done]. by apply Hin, elem_of_nil in E.
  - apply NoDup_cons in Hnd as [Hn Hnd]. cbn [fmap list_fmap sum_list].
    rewrite <- (map_filter_union_complement (λ kv, kv.2 = n) m) at 1.
    rewrite map_size_disj_union by apply map_disjoint_filter_complement.
    f_equal. rewrite (IH (filter (λ kv, ¬ kv.2 = n) m) Hnd).
    + f_equal. apply list_fmap_ext. intros i n' Hn'%list_elem_of_lookup_2.
      f_equal. apply map_eq. intros p. apply option_eq. intros x.
      rewrite !map_lookup_filter_Some. cbn. split; [tauto|].
      intros [Hp ->]. split; [|done]. split; [done|]. by intros ->.
    + intros p x [Hp Hx]%map_lookup_filter_Some. cbn in Hx.
      apply Hin in Hp. apply elem_of_cons in Hp as [->|Hp]; done.
Qed.

Lemma ring_size_exact s :
  owned s → complete s → injectiveOn (hashFunction s) (liveKey s) →
  size (ring s) = expectedPositions s.
Proof.
  intros Hown Hcomp Hinj.
  rewrite (size_by_value (map_to_list (weights s)).*1).
  - unfold expectedPositions. rewrite <- list_fmap_compose.
    f_equal. apply list_fmap_ext. intros i [n w] Hnw%list_elem_of_lookup_2.
    apply elem_of_map_to_list in Hnw. cbn.
    rewrite <- (positionsOf_size s n w) by done.
    unfold positionsOf. by rewrite size_dom.
  - apply NoDup_fst_map_to_list.
  - intros p x Hp. destruct (Hown p x Hp) as (w & Hw & _).
    apply list_elem_of_fmap. exists (x, w). split; [done|].
    by apply elem_of_map_to_list.
Qed.

(** ** C4: the number of positions of each node *)

Lemma demoOps_weights r h :
  weights (run (constructor r h) demoOps)
  = <["NodeC"%string := 3]> (<["NodeB"%string := 1]> (<["NodeA"%string := 2]> ∅)).
Proof. unfold run, demoOps. cbn [foldl apply]. by rewrite !addNode_weights. Qed.

Lemma demoOps_expectedPositions h :
  expectedPositions (run (constructor 3 h) demoOps) = 18%nat.
Proof.
  unfold expectedPositions. rewrite run_numberOfReplicas, demoOps_weights.
  by vm_compute.
Qed.

Lemma demoOps_sortedKeys_length h :
  length (sortedKeys (run (constructor 3 h) demoOps)) = 18%nat.
Proof.
  unfold run, demoOps. cbn [foldl apply].
  rewrite !addNode_sortedKeys_length, !addNode_numberOfReplicas. by cbn.
Qed.

(** C4, as amended. Take a ring built from a fresh one by calls in which
    [addNode] is never applied to a node that is in the weight table at
    that moment, and suppose no two different replica keys hashed by
    these calls share a position. Then for every node of the weight
    table, with weight [w], the ring map holds exactly
    [max 0 (replicas * w)] positions bound to that node, and the ring map
    holds as many positions as the weight table accounts for. In
    particular, with [replicas = 3], after adding NodeA with weight 2,
    NodeB with weight 1 and NodeC with weight 3 the ring map holds 18
    positions and the key list 18 entries. *)
Theorem replica_positions_per_node r h ops :
  freshAdds (constructor r h) ops →
  collisionFree h (touched (constructor r h) ops) →
  (∀ node w, weights (run (constructor r h) ops) !! node = Some w →
     Z.of_nat (size (positionsOf (run (constructor r h) ops) node)) = Z.max 0 (r * w))
  ∧ size (ring (run (constructor r h) ops))
    = expectedPositions (run (constructor r h) ops)
  ∧ (r = 3 → ops = demoOps →
     size (ring (run (constructor r h) ops)) = 18%nat
     ∧ length (sortedKeys (run (constructor r h) ops)) = 18%nat).
Proof.
  intros Hfresh Hfree.
  destruct (exact_run ops (constructor r h)) as (Hown & Hcomp & Hinj).
  { apply owned_constructor. }
  { apply complete_constructor. }
  { done. }
  { apply collisionFree_injectiveOn in Hfree. intros a b Ha Hb. cbn [hashFunction constructor].
    apply Hfree.
    - destruct Ha as [Ha|Ha]; [|done]. by apply liveKey_constructor in Ha.
    - destruct Hb as [Hb|Hb]; [|done]. by apply liveKey_constructor in Hb. }
  rewrite <- (run_hashFunction (constructor r h) ops) in Hinj.
  assert (size (ring (run (constructor r h) ops))
          = expectedPositions (run (constructor r h) ops)) as Htotal
    by (by apply ring_size_exact).
  split; [|split; [done|]].
  - intros node w Hw. rewrite (positionsOf_size _ node w) by done.
    rewrite run_numberOfReplicas. cbn [numberOfReplicas constructor]. lia.
  - intros -> ->. split; [|apply demoOps_sortedKeys_length].
    rewrite Htotal. apply demoOps_expectedPositions.
Qed.

Example demoOps_collisionFree :
  collisionFree polyHash (touched (constructor 3 polyHash) demoOps).
Proof. apply (bool_decide_unpack _). by vm_compute. Qed.

Lemma replica_positions_per_node_witness :
  freshAdds (constructor 3 polyHash) demoOps
  ∧ collisionFree polyHash (touched (constructor 3 polyHash) demoOps)
  ∧ (∀ node w, weights (run (constructor 3 polyHash) demoOps) !! node = Some w →
       Z.of_nat (size (positionsOf (run (constructor 3 polyHash) demoOps) node))
       = Z.max 0 (3 * w))
  ∧ size (ring (run (constructor 3 polyHash) demoOps)) = 18%nat.
Proof.
  split; [exact demoOps_freshAdds|]. split; [exact demoOps_collisionFree|].
  destruct (replica_positions_per_node 3 polyHash demoOps demoOps_freshAdds
              demoOps_collisionFree) as (Hnode & _ & Hdemo).
  split; [exact Hnode|]. exact (proj1 (Hdemo eq_refl eq_refl)).
Defined.

(** C4 fails as stated on two counts, with no two replica keys colliding.
    After [addNode("X", 2)] and [addNode("X", 1)] on a ring with three
    replicas the weight table records weight 1 for ["X"], yet six
    positions are bound to it, not three. After [addNode("X", -1)] the
    weight table records weight -1 and no position is bound to ["X"],
    which is not [3 * -1]. *)
Lemma replica_positions_per_node_counterexample :
  reachable (run (constructor 3 polyHash) doubledOps)
  ∧ collisionFree polyHash (touched (constructor 3 polyHash) doubledOps)
  ∧ weights (run (constructor 3 polyHash) doubledOps) !! "X"%string = Some 1
  ∧ Z.of_nat (size (positionsOf (run (constructor 3 polyHash) doubledOps) "X")) = 6
  ∧ 6 ≠ 3 * 1
  ∧ reachable (run (constructor 3 polyHash) negativeOps)
  ∧ weights (run (constructor 3 polyHash) negativeOps) !! "X"%string = Some (-1)
  ∧ Z.of_nat (size (positionsOf (run (constructor 3 polyHash) negativeOps) "X")) = 0
  ∧ 0 ≠ 3 * -1.
Proof.
  split; [by exists 3, polyHash, doubledOps|].
  split; [apply (bool_decide_unpack _); by vm_compute|].
  split; [by vm_compute|]. split; [by vm_compute|]. split; [lia|].
  split; [by exists 3, polyHash, negativeOps|].
  split; [by vm_compute|]. split; [by vm_compute|]. lia.
Qed.

(** ** The round trip, from the history *)

Lemma touched_app ops ops' : ∀ s,
  touched s (ops ++ ops') = touched s ops ++ touched (run s ops) ops'.
Proof.
  induction ops as [|o ops IH]; intros s; [done|].
  cbn [app touched run foldl]. rewrite IH. by rewrite <- app_assoc.
Qed.

Lemma liveKey_run ops : ∀ s a,
  liveKey (run s ops) a → liveKey s a ∨ a ∈ touched s ops.
Proof.
  induction ops as [|o ops IH]; intros s a Ha; [by left|].
  cbn [run foldl touched] in *. rewrite elem_of_app.
  destruct (IH (apply s o) a Ha) as [[?|?]%liveKey_apply|?]; tauto.
Qed.

(** When no present node was added again and the replica keys hashed by
    the history and by the two calls do not collide, the positions that
    the two calls compute are not stored beforehand. *)
Lemma roundtrip_positions_fresh r h ops node weight p :
  let s := run (constructor r h) ops in
  freshAdds (constructor r h) ops →
  collisionFree h (touched (constructor r h)
                     (ops ++ [AddNode node weight; RemoveNode node])) →
  weights s !! node = None →
  p ∈ replicaHashes s node
        (numberOfReplicas s * (if decide (weight = 0) then 1 else weight)) →
  ring s !! p = None.
Proof.
  intros s Hfresh Hfree Habsent Hp.
  apply collisionFree_injectiveOn in Hfree. rewrite touched_app in Hfree. fold s in Hfree.
  assert (owned s) as Hown
    by (by apply owned_run; [apply owned_constructor|]).
  destruct (ring s !! p) as [n|] eqn:E; [|done]. exfalso.
  destruct (Hown p n E) as (w & Hw & Hin).
  apply elem_of_replicaHashes in Hin as (j & Hj & Hjin).
  apply elem_of_replicaHashes in Hp as (i & Hi & Hiin).
  assert (hashFunction s = h) as Hh by apply run_hashFunction.
  assert ((n, j) = (node, i)) as Heq; [|injection Heq as -> _; congruence].
  apply Hfree.
  - rewrite elem_of_app. left.
    destruct (liveKey_run ops (constructor r h) (n, j)) as [Hlive|?]; [|  |done].
    + by exists w.
    + by apply liveKey_constructor in Hlive.
  - rewrite elem_of_app. right. cbn [touched]. rewrite elem_of_app. right.
    rewrite app_nil_r. apply elem_of_opKeys_remove. split; [done|]. cbn [snd apply].
    by rewrite recordedWeight_addNode, addNode_numberOfReplicas.
  - unfold replicaHash in Hi, Hj. rewrite Hh in Hi, Hj. cbn. congruence.
Qed.

(** The round trip of C5 stated on the history: when no present node was
    added again and no two replica keys hashed by the history and by the
    two calls collide, [addNode] followed by [removeNode] of a node that
    is not in the weight table gives back the state. *)
Lemma addNode_removeNode_roundtrip_history r h ops node weight :
  let s := run (constructor r h) ops in
  freshAdds (constructor r h) ops →
  collisionFree h (touched (constructor r h)
                     (ops ++ [AddNode node weight; RemoveNode node])) →
  weights s !! node = None →
  removeNode (addNode s node weight) node = s.
Proof.
  intros s Hfresh Hfree Habsent.
  assert (reachable s) as Hreach by (by exists r, h, ops).
  apply addNode_removeNode_restores;
    [by apply sortedKeys_Sorted | by apply reachable_keysMatch | done |].
  intros p Hp. by eapply roundtrip_positions_fresh.
Qed.

(** ** Removing a node that no call ever added, from the history *)

(** Every stored position is the position of a replica key hashed by an
    [addNode] of the history, and every node of the weight table was
    added by the history. *)
Lemma stored_positions_traced r h ops :
  let s := run (constructor r h) ops in
  (∀ p node, ring s !! p = Some node →
     (∃ w, AddNode node w ∈ ops)
     ∧ ∃ i, (node, i) ∈ touched (constructor r h) ops ∧ p = replicaHash s node i)
  ∧ (∀ node w, weights s !! node = Some w → ∃ w', AddNode node w' ∈ ops).
Proof.
  induction ops as [|o ops IH] using rev_ind; cbn zeta.
  - split; intros ? ?; cbn; by rewrite lookup_empty.
  - rewrite run_snoc, touched_app. cbn zeta in IH. destruct IH as [IHring IHweights].
    set (s := run (constructor r h) ops) in *.
    split.
    + intros p node Hp.
      assert (∀ n, replicaHash (apply s o) n = replicaHash s n) as Hhash
        by (intros n; unfold replicaHash; by rewrite apply_hashFunction).
      rewrite Hhash.
      assert (ring s !! p = Some node
              ∨ ∃ w, o = AddNode node w
                     ∧ p ∈ replicaHashes s node (numberOfReplicas s * w)) as [Hold|Hnew].
      { destruct o as [m w|m]; cbn [apply] in Hp.
        - rewrite addNode_ring in Hp. case_decide; [|by left].
          injection Hp as <-. right. eauto.
        - rewrite removeNode_ring in Hp. case_decide; [done | by left]. }
      * destruct (IHring p node Hold) as [[w Hw] (i & Hi & Heq)]. split.
        -- exists w. rewrite elem_of_app. by left.
        -- exists i. rewrite elem_of_app. split; [by left | done].
      * destruct Hnew as (w & -> & (i & Heq & Hi)%elem_of_replicaHashes). split.
        -- exists w. rewrite elem_of_app. right. by left.
        -- exists i. rewrite elem_of_app. split; [|done]. right.
           cbn [touched]. rewrite app_nil_r. by apply elem_of_opKeys_add.
    + intros node w Hw.
      assert ((∃ w', AddNode node w' ∈ ops) ∨ ∃ w', o = AddNode node w') as [[w' ?]|[w' ->]].
      { destruct o as [m w'|m]; cbn [apply] in Hw.
        - rewrite addNode_weights in Hw. destruct (decide (m = node)) as [->|Hne].
          + right. eauto.
          + rewrite lookup_insert_ne in Hw by done. left. by eapply IHweights.
        - rewrite removeNode_weights in Hw. apply lookup_delete_Some in Hw as [_ Hw].
          left. by eapply IHweights. }
      * exists w'. rewrite elem_of_app. by left.
      * exists w'. rewrite elem_of_app. right. by left.
Qed.

(** The no-op of C8 stated on the history: when no call of the history
    added [node] and no two replica keys hashed by the history and by the
    removal collide, [removeNode node] changes nothing. *)
Lemma removeNode_never_added_history r h ops node :
  let s := run (constructor r h) ops in
  (∀ w, AddNode node w ∉ ops) →
  collisionFree h (touched (constructor r h) (ops ++ [RemoveNode node])) →
  removeNode s node = s.
Proof.
  intros s Hnever Hfree.
  destruct (stored_positions_traced r h ops) as [Hring Hweights]. fold s in Hring, Hweights.
  assert (weights s !! node = None) as Habsent.
  { destruct (weights s !! node) as [w|] eqn:E; [|done].
    destruct (Hweights node w E) as [w' Hw']. by destruct (Hnever w'). }
  assert (recordedWeight s node = 1) as Hw by (unfold recordedWeight; by rewrite Habsent).
  apply collisionFree_injectiveOn in Hfree. rewrite touched_app in Hfree. fold s in Hfree.
  destruct (removeNode_untouched s node) as [Hr Hk].
  { apply reachable_keysMatch. by exists r, h, ops. }
  { intros p (i & Hp & Hi)%elem_of_replicaHashes.
    destruct (ring s !! p) as [n|] eqn:E; [|done]. exfalso.
    destruct (Hring p n E) as [[w Hadded] (j & Hj & Hpj)].
    assert ((n, j) = (node, i)) as Heq.
    { apply Hfree.
      - apply elem_of_app. by left.
      - apply elem_of_app. right. cbn [touched]. rewrite app_nil_r.
        by apply elem_of_opKeys_remove.
      - assert (hashFunction s = h) as Hh by apply run_hashFunction.
        unfold replicaHash in Hp, Hpj. rewrite Hh in Hp, Hpj. cbn. congruence. }
    injection Heq as -> _. by destruct (Hnever w). }
  apply state_eq; [done | done | apply removeNode_numberOfReplicas | |
                   apply removeNode_hashFunction].
  rewrite removeNode_weights. by apply delete_id.
Qed.

(** * Further properties of the four operations *)

(** ** The key list stays in ascending order *)

(** X1. In every reachable state the key list is in ascending order: an
    entry at a lower index is never above an entry at a higher index.
    [addNode] re-sorts the list and the filter of [removeNode] keeps the
    order. *)
Theorem sortedKeys_ascending s i j x y :
  reachable s →
  sortedKeys s !! i = Some x → sortedKeys s !! j = Some y → (i ≤ j)%nat →
  x ≤ y.
Proof.
  intros Hreach Hi Hj Hij.
  assert (StronglySorted Z.le (sortedKeys s)) as Hsorted.
  { apply Sorted_StronglySorted; [apply _|].
    clear Hi Hj. revert s Hreach. apply reachable_induction.
    - intros r h. constructor.
    - intros s node weight _ _. apply sortedKeys_Sorted_addNode.
    - intros s node _ IH. rewrite removeNode_sortedKeys. by apply Sorted_filter. }
  by eapply StronglySorted_lookup_le.
Qed.

Lemma sortedKeys_ascending_witness :
  reachable demoRing
  ∧ sortedKeys demoRing !! 0%nat = Some 3093841902
  ∧ sortedKeys demoRing !! 17%nat = Some 3093843832
  ∧ (0 ≤ 17)%nat
  ∧ 3093841902 ≤ 3093843832.
Proof.
  assert (sortedKeys demoRing !! 0%nat = Some 3093841902) as H0 by (by vm_compute).
  assert (sortedKeys demoRing !! 17%nat = Some 3093843832) as H17 by (by vm_compute).
  assert (0 ≤ 17)%nat as Hle by lia.
  split; [exact demoRing_reachable|]. split; [exact H0|]. split; [exact H17|].
  split; [exact Hle|].
  exact (sortedKeys_ascending demoRing 0 17 _ _ demoRing_reachable H0 H17 Hle).
Defined.

(** ** The position that decides [getNode] *)

(** A stored position that is the least one at or above the hash, or the
    least one of all when none is at or above the hash, is the position
    [getNode] reads. *)
Lemma getNode_at_successor s key p :
  reachable s → is_Some (ring s !! p) →
  (hashFunction s key ≤ p
   ∧ ∀ q, is_Some (ring s !! q) → hashFunction s key ≤ q → p ≤ q)
  ∨ ((∀ q, is_Some (ring s !! q) → q < hashFunction s key)
     ∧ ∀ q, is_Some (ring s !! q) → p ≤ q) →
  getNode s key = ring s !! p.
Proof.
  intros Hreach Hp Hcase.
  pose proof (sortedKeys_Sorted s Hreach) as Hsorted.
  pose proof (reachable_keysMatch s Hreach) as Hkeys.
  assert (ring s ≠ ∅) as Hne.
  { intros E. rewrite E, lookup_empty in Hp. by destruct Hp. }
  unfold getNode. rewrite decide_False by (by apply map_size_non_empty_iff).
  destruct (list_find (λ k, hashFunction s key ≤ k) (sortedKeys s))
    as [[i x]|] eqn:Hfind.
  - destruct (startIndex_found s key i x Hsorted Hfind) as (-> & Hi & Hx & Hmin).
    unfold nodeAt. rewrite Hi. cbn. f_equal.
    assert (is_Some (ring s !! x)) as Hxs by (by eapply Hkeys, list_elem_of_lookup_2).
    destruct Hcase as [[Hge Hleast]|[Hbelow _]].
    + specialize (Hleast x Hxs Hx). specialize (Hmin p (proj2 (Hkeys p) Hp) Hge). lia.
    + specialize (Hbelow x Hxs). lia.
  - destruct (startIndex_wrap s key Hsorted Hfind) as (-> & Hbelow & Hmin).
    assert (p ∈ sortedKeys s) as Hpin by (by apply Hkeys).
    assert (∃ x, sortedKeys s !! 0%nat = Some x) as [x Hx].
    { destruct (sortedKeys s) as [|x l] eqn:E; [|by exists x].
      by apply keysMatch_empty_iff in E. }
    unfold nodeAt. rewrite Hx. cbn. f_equal.
    destruct Hcase as [[Hge _]|[_ Hleast]].
    + specialize (Hbelow p Hpin). lia.
    + assert (is_Some (ring s !! x)) as Hxs by (by eapply Hkeys, list_elem_of_lookup_2).
      specialize (Hleast x Hxs). specialize (Hmin x p Hx Hpin). lia.
Qed.

(** A non-empty ring always has such a position. *)
Lemma successor_exists s key :
  reachable s → ring s ≠ ∅ →
  ∃ p, is_Some (ring s !! p)
    ∧ ((hashFunction s key ≤ p
        ∧ ∀ q, is_Some (ring s !! q) → hashFunction s key ≤ q → p ≤ q)
       ∨ ((∀ q, is_Some (ring s !! q) → q < hashFunction s key)
          ∧ ∀ q, is_Some (ring s !! q) → p ≤ q)).
Proof.
  intros Hreach Hne.
  pose proof (sortedKeys_Sorted s Hreach) as Hsorted.
  pose proof (reachable_keysMatch s Hreach) as Hkeys.
  destruct (list_find (λ k, hashFunction s key ≤ k) (sortedKeys s))
    as [[i x]|] eqn:Hfind.
  - destruct (startIndex_found s key i x Hsorted Hfind) as (_ & Hi & Hx & Hmin).
    exists x. split; [by eapply Hkeys, list_elem_of_lookup_2|]. left.
    split; [done|]. intros q Hq. apply Hmin. by apply Hkeys.
  - destruct (startIndex_wrap s key Hsorted Hfind) as (_ & Hbelow & Hmin).
    assert (∃ x, sortedKeys s !! 0%nat = Some x) as [x Hx].
    { destruct (sortedKeys s) as [|x l] eqn:E; [|by exists x].
      by apply keysMatch_empty_iff in E. }
    exists x. split; [by eapply Hkeys, list_elem_of_lookup_2|]. right. split.
    + intros q Hq. by apply Hbelow, Hkeys.
    + intros q Hq. by apply (Hmin x q), Hkeys.
Qed.

(** ** Looking up what was just added *)

Lemma getNode_exact_hit s key node :
  reachable s → ring s !! hashFunction s key = Some node →
  getNode s key = Some node.
Proof.
  intros Hreach Hhit. rewrite <- Hhit. apply getNode_at_successor; [done | eauto |].
  left. split; [lia|]. by intros q _ Hq.
Qed.

(** X2. After [addNode node weight] on a reachable ring, looking up any of
    the replica keys [node:i] that the call hashed answers [node]: a key
    whose hash is a stored position is served by that very position. *)
Theorem getNode_finds_added_replica s node weight i :
  reachable s → i ∈ iterations (numberOfReplicas s * weight) →
  getNode (addNode s node weight) (replicaKey node i) = Some node.
Proof.
  intros Hreach Hi. apply getNode_exact_hit.
  - by apply (reachable_apply s (AddNode node weight)).
  - rewrite addNode_hashFunction, addNode_ring. rewrite decide_True; [done|].
    apply elem_of_replicaHashes. by exists i.
Qed.

Lemma getNode_finds_added_replica_witness :
  reachable demoRing ∧ 4%nat ∈ iterations (numberOfReplicas demoRing * 2)
  ∧ getNode (addNode demoRing "NodeD" 2) (replicaKey "NodeD" 4) = Some "NodeD"%string.
Proof.
  assert (4%nat ∈ iterations (numberOfReplicas demoRing * 2)) as Hi.
  { apply (bool_decide_unpack _). by vm_compute. }
  split; [exact demoRing_reachable|]. split; [exact Hi|].
  exact (getNode_finds_added_replica demoRing "NodeD" 2 4 demoRing_reachable Hi).
Defined.

(** ** Adding or removing a node moves few keys *)

Lemma addNode_keeps_stored s node weight q :
  is_Some (ring s !! q) → is_Some (ring (addNode s node weight) !! q).
Proof. intros Hq. rewrite addNode_ring. case_decide; [eauto | done]. Qed.

(** X3. Adding a node to a reachable ring remaps a key only to the node
    added: for every key, [getNode] answers after [addNode node weight]
    either what it answered before or [node]. *)
Theorem addNode_moves_keys_only_to_new_node s node weight key :
  reachable s →
  getNode (addNode s node weight) key = getNode s key
  ∨ getNode (addNode s node weight) key = Some node.
Proof.
  intros Hreach. set (s' := addNode s node weight).
  assert (reachable s') as Hreach' by apply (reachable_apply s (AddNode node weight) Hreach).
  assert (hashFunction s' = hashFunction s) as Hh by apply addNode_hashFunction.
  destruct (decide (ring s' = ∅)) as [Hempty|Hne].
  { left. assert (ring s = ∅) as Hempty0.
    { apply map_empty. intros q. destruct (ring s !! q) as [x|] eqn:E; [|done].
      destruct (addNode_keeps_stored s node weight q) as [y Hy]; [eauto|].
      fold s' in Hy. by rewrite Hempty, lookup_empty in Hy. }
    unfold getNode. rewrite !decide_True; [done | | ]; by apply map_size_empty_iff. }
  destruct (successor_exists s' key Hreach' Hne) as (p & Hp & Hcase).
  rewrite (getNode_at_successor s' key p Hreach' Hp Hcase).
  unfold s'. rewrite addNode_ring. case_decide as Hnew; [by right | left].
  assert (is_Some (ring s !! p)) as Hp0.
  { unfold s' in Hp. rewrite addNode_ring, decide_False in Hp; done. }
  symmetry. apply getNode_at_successor; [done | done |].
  rewrite Hh in Hcase. destruct Hcase as [[Hge Hmin]|[Hbelow Hmin]]; [left | right].
  - split; [done|]. intros q Hq. by apply Hmin, addNode_keeps_stored.
  - split; intros q Hq; [apply Hbelow | apply Hmin]; by apply addNode_keeps_stored.
Qed.

Lemma addNode_moves_keys_only_to_new_node_witness :
  reachable demoRing
  ∧ (getNode (addNode demoRing "NodeD" 2) "myKey1" = getNode demoRing "myKey1"
     ∨ getNode (addNode demoRing "NodeD" 2) "myKey1" = Some "NodeD"%string).
Proof.
  split; [exact demoRing_reachable|].
  exact (addNode_moves_keys_only_to_new_node demoRing "NodeD" 2 "myKey1"
           demoRing_reachable).
Defined.

Lemma removeNode_stored_before s node q :
  is_Some (ring (removeNode s node) !! q) → is_Some (ring s !! q).
Proof. rewrite removeNode_ring. case_decide; [by intros [? ?] | done]. Qed.

(** X4. Removing a node from a reachable ring leaves every other key
    where it was, provided the positions the call deletes are bound to
    that node (or not stored): a key that [getNode] mapped to another node
    is mapped to the same node afterwards. *)
Theorem removeNode_keeps_other_keys s node key other :
  reachable s →
  (∀ p, p ∈ replicaHashes s node (numberOfReplicas s * recordedWeight s node) →
        ring s !! p = Some node ∨ ring s !! p = None) →
  getNode s key = Some other → other ≠ node →
  getNode (removeNode s node) key = Some other.
Proof.
  intros Hreach Hown Hget Hother. set (s' := removeNode s node).
  assert (reachable s') as Hreach' by apply (reachable_apply s (RemoveNode node) Hreach).
  assert (hashFunction s' = hashFunction s) as Hh by apply removeNode_hashFunction.
  assert (ring s ≠ ∅) as Hne.
  { intros E. unfold getNode in Hget. rewrite decide_True in Hget; [done|].
    by apply map_size_empty_iff. }
  destruct (successor_exists s key Hreach Hne) as (p & Hp & Hcase).
  rewrite (getNode_at_successor s key p Hreach Hp Hcase) in Hget.
  assert (ring s' !! p = Some other) as Hp'.
  { unfold s'. rewrite removeNode_ring. rewrite decide_False; [done|].
    intros Hin. destruct (Hown p Hin); congruence. }
  rewrite <- Hp'. apply getNode_at_successor; [done | eauto |].
  rewrite Hh. destruct Hcase as [[Hge Hmin]|[Hbelow Hmin]]; [left | right].
  - split; [done|]. intros q Hq. by apply Hmin, (removeNode_stored_before s node).
  - split; intros q Hq; [apply Hbelow | apply Hmin];
      by apply (removeNode_stored_before s node).
Qed.

Lemma demoRing_NodeB_positions p :
  p ∈ replicaHashes demoRing "NodeB"
        (numberOfReplicas demoRing * recordedWeight demoRing "NodeB") →
  ring demoRing !! p = Some "NodeB"%string ∨ ring demoRing !! p = None.
Proof.
  assert (Forall (λ p, ring demoRing !! p = Some "NodeB"%string)
            (replicaHashes demoRing "NodeB"
               (numberOfReplicas demoRing * recordedWeight demoRing "NodeB"))) as H.
  { apply (bool_decide_unpack _). by vm_compute. }
  intros Hp. left. by eapply Forall_forall in H.
Qed.

Lemma removeNode_keeps_other_keys_witness :
  reachable demoRing
  ∧ (∀ p, p ∈ replicaHashes demoRing "NodeB"
                (numberOfReplicas demoRing * recordedWeight demoRing "NodeB") →
          ring demoRing !! p = Some "NodeB"%string ∨ ring demoRing !! p = None)
  ∧ getNode demoRing "myKey1" = Some "NodeA"%string
  ∧ "NodeA"%string ≠ "NodeB"%string
  ∧ getNode (removeNode demoRing "NodeB") "myKey1" = Some "NodeA"%string.
Proof.
  assert (getNode demoRing "myKey1" = Some "NodeA"%string) as Hget by (by vm_compute).
  assert ("NodeA"%string ≠ "NodeB"%string) as Hne by discriminate.
  split; [exact demoRing_reachable|]. split; [exact demoRing_NodeB_positions|].
  split; [exact Hget|]. split; [exact Hne|].
  exact (removeNode_keeps_other_keys demoRing "NodeB" "myKey1" "NodeA"
           demoRing_reachable demoRing_NodeB_positions Hget Hne).
Defined.

(** ** A removed node is not served any more *)

(** X5. On a ring built without adding a node that was already in the
    weight table, [removeNode node] leaves no position bound to [node]:
    afterwards [node] is not in the weight table, [getNode] never answers
    it and no result of [getNodes] holds it. *)
Theorem removeNode_node_never_returned r h ops node :
  freshAdds (constructor r h) ops →
  weights (removeNode (run (constructor r h) ops) node) !! node = None
  ∧ (∀ key, getNode (removeNode (run (constructor r h) ops) node) key ≠ Some node)
  ∧ (∀ fuel key count res,
       getNodes fuel (removeNode (run (constructor r h) ops) node) key count = Some res →
       node ∉ res).
Proof.
  intros Hfresh. set (s' := removeNode (run (constructor r h) ops) node).
  assert (weights s' !! node = None) as Habsent.
  { unfold s'. rewrite removeNode_weights. apply lookup_delete_eq. }
  assert (∀ p, ring s' !! p ≠ Some node) as Hnone.
  { intros p Hp.
    destruct (owned_removeNode (run (constructor r h) ops) node
                (owned_run ops _ (owned_constructor r h) Hfresh) p node Hp)
      as (w & Hw & _).
    fold s' in Hw. congruence. }
  split; [done|]. split.
  - intros key [p Hp]%getNode_stored. by apply (Hnone p).
  - intros fuel key count res (_ & _ & Hin)%getNodes_result Hnode.
    destruct (Hin node Hnode) as [p Hp]. by apply (Hnone p).
Qed.

Lemma removeNode_node_never_returned_witness :
  freshAdds (constructor 3 polyHash) demoOps
  ∧ ∀ key, getNode (removeNode (run (constructor 3 polyHash) demoOps) "NodeB") key
           ≠ Some "NodeB"%string.
Proof.
  split; [exact demoOps_freshAdds|].
  exact (proj1 (proj2 (removeNode_node_never_returned 3 polyHash demoOps "NodeB"
                         demoOps_freshAdds))).
Defined.

(** ** The shape of the result of [getNodes] *)

Lemma collect_prefix s result index : result `prefix_of` collect s result index.
Proof.
  destruct (collect_cases s result index) as [->|(node & -> & _)]; [done|].
  by apply prefix_app_r.
Qed.

(** The loop only appends to [result]. *)
Lemma getNodes_loop_prefix fuel s count ringSize :
  ∀ result index res,
    getNodes_loop fuel s count ringSize result index = Some res →
    result `prefix_of` res.
Proof.
  induction fuel as [|fuel IH]; intros result index res; cbn [getNodes_loop];
    case_decide as Hguard; try done.
  - by intros [= <-].
  - intros Hres. etrans; [apply collect_prefix | by eapply IH].
  - by intros [= <-].
Qed.

(** The loop leaves with exactly [min count ringSize] entries. *)
Lemma getNodes_loop_length fuel s count ringSize :
  ∀ result index res,
    getNodes_loop fuel s count ringSize result index = Some res →
    Z.of_nat (length result) ≤ count → (length result ≤ ringSize)%nat →
    Z.of_nat (length res) = Z.min count (Z.of_nat ringSize).
Proof.
  induction fuel as [|fuel IH]; intros result index res; cbn [getNodes_loop];
    case_decide as Hguard; try done.
  - intros [= <-]. lia.
  - intros Hres Hc Hn. pose proof (collect_length s result index).
    eapply IH; [exact Hres | lia | lia].
  - intros [= <-]. lia.
Qed.

(** X6. When [getNodes key count] returns, the number of entries is
    [min count ringSize], where [ringSize] is the length of the key list,
    and zero for a [count] that is not positive: the call never returns a
    shorter list. *)
Theorem getNodes_length s fuel key count res :
  getNodes fuel s key count = Some res →
  Z.of_nat (length res) = Z.max 0 (Z.min count (Z.of_nat (length (sortedKeys s)))).
Proof.
  unfold getNodes. case_decide as Hguard.
  - intros [= <-]. cbn. destruct Hguard as [->|?]; cbn; lia.
  - intros Hres. apply getNodes_loop_length in Hres; cbn; lia.
Qed.

Lemma getNodes_length_witness :
  getNodes 18 demoRing "myKey2" 2 = Some ["NodeA"; "NodeB"]%string
  ∧ Z.of_nat (length ["NodeA"; "NodeB"]%string)
    = Z.max 0 (Z.min 2 (Z.of_nat (length (sortedKeys demoRing)))).
Proof.
  assert (getNodes 18 demoRing "myKey2" 2 = Some ["NodeA"; "NodeB"]%string) as Hrun
    by (by vm_compute).
  split; [exact Hrun|].
  exact (getNodes_length demoRing 18 "myKey2" 2 _ Hrun).
Defined.

(** X7. In a reachable state, when [getNode key] answers a node whose name
    is not the empty string, every list that [getNodes key count] returns
    for a positive [count] starts with that node. *)
Theorem getNodes_starts_with_getNode s fuel key count res node :
  reachable s → 0 < count →
  getNode s key = Some node → node ≠ ""%string →
  getNodes fuel s key count = Some res →
  head res = Some node.
Proof.
  intros Hreach Hcount Hget Hname Hres.
  assert (ring s ≠ ∅) as Hne.
  { intros E. unfold getNode in Hget. rewrite decide_True in Hget; [done|].
    by apply map_size_empty_iff. }
  assert (sortedKeys s ≠ []) as Hkeys
    by (by rewrite <- (keysMatch_empty_iff s (reachable_keysMatch s Hreach))).
  unfold getNode in Hget. rewrite decide_False in Hget
    by (by apply map_size_non_empty_iff).
  unfold getNodes in Hres. rewrite decide_False in Hres.
  2: { intros [E|?]; [|lia]. by destruct (sortedKeys s). }
  destruct fuel as [|fuel]; cbn [getNodes_loop] in Hres;
    rewrite decide_True in Hres;
    try (split; [cbn; lia | destruct (sortedKeys s); [done | cbn; lia]]).
  { done. }
  assert (collect s [] (startIndex s key) = [node]) as Hfirst.
  { unfold collect. rewrite Hget. rewrite decide_True; [done|].
    split; [done | apply not_elem_of_nil]. }
  rewrite Hfirst in Hres. apply getNodes_loop_prefix in Hres as [rest ->]. done.
Qed.

Lemma getNodes_starts_with_getNode_witness :
  reachable demoRing ∧ 0 < 2
  ∧ getNode demoRing "myKey2" = Some "NodeA"%string ∧ "NodeA"%string ≠ ""%string
  ∧ getNodes 18 demoRing "myKey2" 2 = Some ["NodeA"; "NodeB"]%string
  ∧ head ["NodeA"; "NodeB"]%string = Some "NodeA"%string.
Proof.
  assert (0 < 2) as Hcount by lia.
  assert (getNode demoRing "myKey2" = Some "NodeA"%string) as Hget by (by vm_compute).
  assert ("NodeA"%string ≠ ""%string) as Hname by discriminate.
  assert (getNodes 18 demoRing "myKey2" 2 = Some ["NodeA"; "NodeB"]%string) as Hrun
    by (by vm_compute).
  split; [exact demoRing_reachable|]. split; [exact Hcount|]. split; [exact Hget|].
  split; [exact Hname|]. split; [exact Hrun|].
  exact (getNodes_starts_with_getNode demoRing 18 "myKey2" 2 _ "NodeA"
           demoRing_reachable Hcount Hget Hname Hrun).
Defined.

Lemma getNodes_loop_mono s ringSize count1 count2 :
  count1 ≤ count2 →
  ∀ fuel1 fuel2 result index res1 res2,
    getNodes_loop fuel1 s count1 ringSize result index = Some res1 →
    getNodes_loop fuel2 s count2 ringSize result index = Some res2 →
    res1 `prefix_of` res2.
Proof.
  intros Hle. induction fuel1 as [|fuel1 IH]; intros fuel2 result index res1 res2;
    cbn [getNodes_loop]; case_decide as Hguard1; try done.
  - intros [= <-] Hres2. by eapply getNodes_loop_prefix.
  - destruct fuel2 as [|fuel2]; cbn [getNodes_loop]; rewrite decide_True by lia; [done|].
    apply IH.
  - intros [= <-] Hres2. by eapply getNodes_loop_prefix.
Qed.

(** X8. Asking for more nodes only extends the answer: for
    [count1 <= count2], a list returned by [getNodes key count1] is a
    prefix of every list returned by [getNodes key count2] on the same
    ring. *)
Theorem getNodes_prefix_of_larger_count s fuel1 fuel2 key count1 count2 res1 res2 :
  count1 ≤ count2 →
  getNodes fuel1 s key count1 = Some res1 →
  getNodes fuel2 s key count2 = Some res2 →
  res1 `prefix_of` res2.
Proof.
  intros Hle. unfold getNodes. case_decide as Hguard1.
  - intros [= <-] _. apply prefix_nil.
  - rewrite decide_False by (intros [?|?]; apply Hguard1; [by left | right; lia]).
    by apply getNodes_loop_mono.
Qed.

Lemma getNodes_prefix_of_larger_count_witness :
  2 ≤ 3
  ∧ getNodes 18 demoRing "myKey2" 2 = Some ["NodeA"; "NodeB"]%string
  ∧ getNodes 18 demoRing "myKey2" 3 = Some ["NodeA"; "NodeB"; "NodeC"]%string
  ∧ ["NodeA"; "NodeB"]%string `prefix_of` ["NodeA"; "NodeB"; "NodeC"]%string.
Proof.
  assert (2 ≤ 3) as Hle by lia.
  assert (getNodes 18 demoRing "myKey2" 2 = Some ["NodeA"; "NodeB"]%string) as H2
    by (by vm_compute).
  assert (getNodes 18 demoRing "myKey2" 3 = Some ["NodeA"; "NodeB"; "NodeC"]%string) as H3
    by (by vm_compute).
  split; [exact Hle|]. split; [exact H2|]. split; [exact H3|].
  exact (getNodes_prefix_of_larger_count demoRing 18 18 "myKey2" 2 3 _ _ Hle H2 H3).
Defined.

(** ** When [getNodes] is sure to return *)

Lemma omap_length_le {A B} (f : A → option B) (l : list A) :
  (length (omap f l) ≤ length l)%nat.
Proof. induction l as [|a l IH]; cbn; [lia|]. destruct (f a); cbn; lia. Qed.

(** The nodes bound in a reachable ring are met along the key list. *)
Lemma ringNodes_on_key_list s x :
  reachable s → x ∈ ringNodes s →
  ∃ j, (j < length (sortedKeys s))%nat ∧ nodeAt s j = Some x.
Proof.
  intros Hreach [p Hp]%elem_of_map_img.
  assert (p ∈ sortedKeys s) as [j Hj]%list_elem_of_lookup
    by (apply (reachable_keysMatch s Hreach); eauto).
  exists j. split; [by eapply lookup_lt_Some|]. unfold nodeAt. by rewrite Hj.
Qed.

(** X9. In a reachable state whose ring binds at least [count] distinct
    nodes with a non-empty name, [getNodes key count] with [count > 0]
    returns within one revolution (as many iterations as the key list has
    entries), and the list it returns has exactly [count] entries. *)
Theorem getNodes_returns_count s key count :
  reachable s → 0 < count →
  count ≤ Z.of_nat (size (ringNodes s ∖ {[""%string]})) →
  ∃ res, getNodes (length (sortedKeys s)) s key count = Some res
         ∧ Z.of_nat (length res) = count.
Proof.
  intros Hreach Hcount Henough.
  set (nodes := elements (ringNodes s ∖ {[""%string]})).
  assert (∀ x, x ∈ nodes →
            x ≠ ""%string
            ∧ ∃ j, (j < length (sortedKeys s))%nat ∧ nodeAt s j = Some x) as Hnodes.
  { intros x [Hx Hname]%elem_of_elements%elem_of_difference. split.
    - intros ->. apply Hname. by apply elem_of_singleton.
    - by apply ringNodes_on_key_list. }
  assert (length nodes ≤ length (sortedKeys s))%nat as Hfit.
  { pose proof (omap_length_le (nodeAt s) (seq 0 (length (sortedKeys s)))) as Hbound.
    rewrite length_seq in Hbound.
    etrans; [|exact Hbound].
    apply submseteq_length, NoDup_submseteq; [apply NoDup_elements|].
    intros x (_ & j & Hj & Hat)%Hnodes. apply list_elem_of_omap.
    exists j. split; [|done]. apply elem_of_seq. lia. }
  change (count ≤ Z.of_nat (length nodes)) in Henough.
  destruct (getNodes_returns s key count nodes) as [res Hres].
  - apply NoDup_elements.
  - exact Hnodes.
  - left. exact Henough.
  - exists res. split; [done|].
    unfold getNodes in Hres. rewrite decide_False in Hres.
    + apply getNodes_loop_length in Hres; [|cbn; lia..]. lia.
    + intros [E|?]; [|lia]. rewrite E in Hfit. cbn in Hfit. lia.
Qed.

Lemma getNodes_returns_count_witness :
  reachable demoRing ∧ 0 < 3
  ∧ 3 ≤ Z.of_nat (size (ringNodes demoRing ∖ {[""%string]}))
  ∧ ∃ res, getNodes (length (sortedKeys demoRing)) demoRing "myKey2" 3 = Some res
           ∧ Z.of_nat (length res) = 3.
Proof.
  assert (0 < 3) as Hcount by lia.
  assert (3 ≤ Z.of_nat (size (ringNodes demoRing ∖ {[""%string]}))) as Henough
    by (by vm_compute).
  split; [exact demoRing_reachable|]. split; [exact Hcount|]. split; [exact Henough|].
  exact (getNodes_returns_count demoRing "myKey2" 3 demoRing_reachable Hcount Henough).
Defined.

(** ** The empty ring and the empty name *)

(** X10. In a reachable state [getNode] answers [undefined] exactly when
    the ring map is empty; then [getNodes] returns the empty list at once,
    whatever the count; and on a non-empty ring a list returned for a
    positive count is never empty. *)
Theorem lookups_and_emptiness s key :
  reachable s →
  (getNode s key = None ↔ ring s = ∅)
  ∧ (ring s = ∅ → ∀ fuel count, getNodes fuel s key count = Some [])
  ∧ (ring s ≠ ∅ → ∀ fuel count res,
       0 < count → getNodes fuel s key count = Some res → res ≠ []).
Proof.
  intros Hreach. pose proof (reachable_keysMatch s Hreach) as Hkeys.
  split; [|split].
  - split.
    + intros Hnone. destruct (decide (ring s = ∅)) as [|Hne]; [done|].
      destruct (getNode_is_Some s key Hreach Hne) as (p & node & _ & Hget). congruence.
    + intros E. unfold getNode. rewrite decide_True; [done|]. by apply map_size_empty_iff.
  - intros E%(keysMatch_empty_iff s Hkeys) fuel count. unfold getNodes.
    rewrite decide_True; [done|]. left. by rewrite E.
  - intros Hne fuel count res Hcount Hres%getNodes_length ->.
    assert (sortedKeys s ≠ []) as Hlist by (by rewrite <- (keysMatch_empty_iff s Hkeys)).
    destruct (sortedKeys s); [done|]. cbn in Hres. lia.
Qed.

Lemma lookups_and_emptiness_witness :
  reachable (constructor 3 polyHash)
  ∧ getNode (constructor 3 polyHash) "myKey1" = None
  ∧ ∀ fuel count, getNodes fuel (constructor 3 polyHash) "myKey1" count = Some [].
Proof.
  pose proof (lookups_and_emptiness (constructor 3 polyHash) "myKey1"
                (reachable_constructor 3 polyHash)) as (Hget & Hgets & _).
  split; [exact (reachable_constructor 3 polyHash)|].
  split; [exact (proj2 Hget eq_refl) | exact (Hgets eq_refl)].
Defined.

Lemma collect_no_empty_name s result index :
  ""%string ∉ result → ""%string ∉ collect s result index.
Proof.
  intros Hres. unfold collect. destruct (nodeAt s index) as [node|]; [|done].
  case_decide as H; [|done]. rewrite elem_of_app, list_elem_of_singleton.
  intros [?|<-]; [done | by destruct H].
Qed.

Lemma getNodes_loop_no_empty_name fuel s count ringSize :
  ∀ result index res,
    getNodes_loop fuel s count ringSize result index = Some res →
    ""%string ∉ result → ""%string ∉ res.
Proof.
  induction fuel as [|fuel IH]; intros result index res; cbn [getNodes_loop];
    case_decide as Hguard; try done.
  - by intros [= <-].
  - intros Hres Hno. eapply IH; [exact Hres | by apply collect_no_empty_name].
  - by intros [= <-].
Qed.

(** While the ring binds nothing but the empty name, nothing is collected
    and the guard stays true. *)
Lemma getNodes_loop_empty_name_stuck s count ringSize :
  (∀ p x, ring s !! p = Some x → x = ""%string) →
  0 < count → (0 < ringSize)%nat →
  ∀ fuel index, getNodes_loop fuel s count ringSize [] index = None.
Proof.
  intros Honly Hcount Hsize. induction fuel as [|fuel IH]; intros index;
    cbn [getNodes_loop]; rewrite decide_True by (cbn; lia); [done|].
  assert (collect s [] index = []) as ->; [|apply IH].
  unfold collect. destruct (nodeAt s index) as [node|] eqn:E; [|done].
  apply nodeAt_stored in E as [p Hp]. apply Honly in Hp as ->.
  rewrite decide_False; [done | tauto].
Qed.

(** X11. A node whose name is the empty string is never collected by
    [getNodes] (the test [node && ...] takes it for a missing node): no
    returned list holds it, and on a ring with a non-empty key list that
    binds nothing but the empty name, [getNodes] with a positive count
    never returns. *)
Theorem getNodes_skips_empty_name s key count :
  (∀ fuel res, getNodes fuel s key count = Some res → ""%string ∉ res)
  ∧ ((∀ p x, ring s !! p = Some x → x = ""%string) →
     sortedKeys s ≠ [] → 0 < count →
     ∀ fuel, getNodes fuel s key count = None).
Proof.
  split.
  - intros fuel res. unfold getNodes. case_decide.
    + intros [= <-]. apply not_elem_of_nil.
    + intros Hres. eapply getNodes_loop_no_empty_name; [exact Hres|].
      apply not_elem_of_nil.
  - intros Honly Hkeys Hcount fuel. unfold getNodes. rewrite decide_False.
    + apply getNodes_loop_empty_name_stuck; [done | done |].
      destruct (sortedKeys s); [done | cbn; lia].
    + intros [E|?]; [|lia]. by destruct (sortedKeys s).
Qed.

Lemma namelessRing_nodes p x : ring namelessRing !! p = Some x → x = ""%string.
Proof.
  assert (map_Forall (λ _ x, x = ""%string) (ring namelessRing)) as H.
  { apply (bool_decide_unpack _). by vm_compute. }
  apply H.
Qed.

Lemma getNodes_skips_empty_name_witness :
  (∀ p x, ring namelessRing !! p = Some x → x = ""%string)
  ∧ sortedKeys namelessRing ≠ [] ∧ 0 < 1
  ∧ ∀ fuel, getNodes fuel namelessRing "k" 1 = None.
Proof.
  assert (sortedKeys namelessRing ≠ []) as Hkeys by (by vm_compute).
  assert (0 < 1) as Hcount by lia.
  split; [exact namelessRing_nodes|]. split; [exact Hkeys|]. split; [exact Hcount|].
  exact (proj2 (getNodes_skips_empty_name namelessRing "k" 1)
           namelessRing_nodes Hkeys Hcount).
Defined.

(** ** How the mutations compose *)

Lemma replicaHashes_addNode s node weight other bound :
  replicaHashes (addNode s node weight) other bound = replicaHashes s other bound.
Proof. apply replicaHashes_ext, addNode_hashFunction. Qed.

(** X12. Two different nodes can be added in either order: when the
    positions computed for the one are disjoint from those computed for
    the other, [addNode X wX; addNode Y wY] and [addNode Y wY; addNode X wX]
    leave the same state. *)
Theorem addNode_order_irrelevant s nodeX nodeY weightX weightY :
  nodeX ≠ nodeY →
  (∀ p, p ∈ replicaHashes s nodeX (numberOfReplicas s * weightX) →
        p ∉ replicaHashes s nodeY (numberOfReplicas s * weightY)) →
  addNode (addNode s nodeX weightX) nodeY weightY
  = addNode (addNode s nodeY weightY) nodeX weightX.
Proof.
  intros Hne Hdisjoint. apply state_eq.
  - apply map_eq. intros p.
    rewrite !addNode_ring, !addNode_numberOfReplicas, !replicaHashes_addNode.
    destruct (decide (p ∈ replicaHashes s nodeX (numberOfReplicas s * weightX)))
      as [HX|HX],
      (decide (p ∈ replicaHashes s nodeY (numberOfReplicas s * weightY)))
      as [HY|HY]; try done.
    by destruct (Hdisjoint p HX).
  - apply (Sorted_unique Z.le); [apply sortedKeys_Sorted_addNode..|].
    rewrite !addNode_sortedKeys_Permutation, !addNode_numberOfReplicas,
      !replicaHashes_addNode.
    rewrite <- !app_assoc. f_equiv. apply Permutation_app_comm.
  - by rewrite !addNode_numberOfReplicas.
  - rewrite !addNode_weights. by apply insert_insert_ne.
  - by rewrite !addNode_hashFunction.
Qed.

Lemma demoRing_NodeD_NodeE_disjoint p :
  p ∈ replicaHashes demoRing "NodeD" (numberOfReplicas demoRing * 1) →
  p ∉ replicaHashes demoRing "NodeE" (numberOfReplicas demoRing * 2).
Proof.
  assert (Forall (λ p, p ∉ replicaHashes demoRing "NodeE" (numberOfReplicas demoRing * 2))
            (replicaHashes demoRing "NodeD" (numberOfReplicas demoRing * 1))) as H.
  { apply (bool_decide_unpack _). by vm_compute. }
  intros Hp. by eapply Forall_forall in H.
Qed.

Lemma addNode_order_irrelevant_witness :
  "NodeD"%string ≠ "NodeE"%string
  ∧ (∀ p, p ∈ replicaHashes demoRing "NodeD" (numberOfReplicas demoRing * 1) →
          p ∉ replicaHashes demoRing "NodeE" (numberOfReplicas demoRing * 2))
  ∧ addNode (addNode demoRing "NodeD" 1) "NodeE" 2
    = addNode (addNode demoRing "NodeE" 2) "NodeD" 1.
Proof.
  assert ("NodeD"%string ≠ "NodeE"%string) as Hne by discriminate.
  split; [exact Hne|]. split; [exact demoRing_NodeD_NodeE_disjoint|].
  exact (addNode_order_irrelevant demoRing "NodeD" "NodeE" 1 2 Hne
           demoRing_NodeD_NodeE_disjoint).
Defined.

Lemma iterations_subset (a b : Z) i : a ≤ b → i ∈ iterations a → i ∈ iterations b.
Proof. unfold iterations. rewrite !elem_of_seq. lia. Qed.

(** X13. Removing a node twice is the same as removing it once, as long
    as the weight recorded for it is not negative: the second call falls
    back to weight 1 and finds nothing left to delete. *)
Theorem removeNode_twice s node :
  (∀ w, weights s !! node = Some w → 0 ≤ w) →
  removeNode (removeNode s node) node = removeNode s node.
Proof.
  intros Hweight. set (s1 := removeNode s node).
  assert (weights s1 !! node = None) as Habsent
    by (unfold s1; rewrite removeNode_weights; apply lookup_delete_eq).
  assert (recordedWeight s1 node = 1) as Hw1
    by (unfold recordedWeight; by rewrite Habsent).
  assert (∀ p, p ∈ replicaHashes s1 node (numberOfReplicas s1 * recordedWeight s1 node) →
               p ∈ replicaHashes s node (numberOfReplicas s * recordedWeight s node))
    as Hsub.
  { intros p. rewrite Hw1. unfold s1.
    rewrite removeNode_numberOfReplicas,
      (replicaHashes_ext s (removeNode s node)) by apply removeNode_hashFunction.
    rewrite !elem_of_replicaHashes. intros (i & -> & Hi). exists i. split; [done|].
    assert (1 ≤ recordedWeight s node) as Hrw.
    { unfold recordedWeight. destruct (weights s !! node) as [w|] eqn:E; [|lia].
      specialize (Hweight w eq_refl). case_decide; lia. }
    destruct (decide (0 ≤ numberOfReplicas s)).
    - eapply iterations_subset; [|exact Hi]. nia.
    - unfold iterations in Hi. replace (Z.to_nat (numberOfReplicas s * 1)) with 0%nat in Hi
        by lia. by apply elem_of_nil in Hi. }
  apply state_eq.
  - apply map_eq. intros p. rewrite (removeNode_ring s1).
    case_decide as Hin; [|done].
    unfold s1. rewrite removeNode_ring. by rewrite decide_True by (by apply Hsub).
  - rewrite (removeNode_sortedKeys s1). apply filter_keep_all, Forall_forall.
    intros p Hp Hin. apply Hsub in Hin.
    unfold s1 in Hp. rewrite removeNode_sortedKeys in Hp.
    by apply list_elem_of_filter in Hp as [Hout _].
  - apply removeNode_numberOfReplicas.
  - rewrite (removeNode_weights s1). by apply delete_id.
  - apply removeNode_hashFunction.
Qed.

Lemma removeNode_twice_witness :
  (∀ w, weights demoRing !! "NodeB"%string = Some w → 0 ≤ w)
  ∧ removeNode (removeNode demoRing "NodeB") "NodeB" = removeNode demoRing "NodeB".
Proof.
  assert (∀ w, weights demoRing !! "NodeB"%string = Some w → 0 ≤ w) as Hweight.
  { intros w Hw. assert (weights demoRing !! "NodeB"%string = Some 1) as E
      by (by vm_compute). rewrite E in Hw. injection Hw as <-. lia. }
  split; [exact Hweight|].
  exact (removeNode_twice demoRing "NodeB" Hweight).
Defined.

(** ** The hash functions return 32-bit values *)

Example parseInt16_samples :
  parseInt16 "ff" = Some 255 ∧ parseInt16 "  -0x1F zz" = Some (-31)
  ∧ parseInt16 "0x" = None ∧ parseInt16 "xyz" = None
  ∧ defaultHash constantDigest "k" = Some 3558706393.
Proof. by vm_compute. Qed.

Lemma hexDigit_range c d : hexDigit c = Some d → 0 ≤ d ≤ 15.
Proof. unfold hexDigit. repeat case_decide; intros [= <-]; lia. Qed.

Lemma hexPrefix_allHex s : ∀ acc seen,
  allHex s → 0 ≤ acc → (seen = true ∨ s ≠ EmptyString) →
  ∃ v, hexPrefix acc seen s = Some v
       ∧ acc * 16 ^ Z.of_nat (String.length s) ≤ v
         < (acc + 1) * 16 ^ Z.of_nat (String.length s).
Proof.
  induction s as [|c rest IH]; intros acc seen Hhex Hacc Hseen.
  - destruct Hseen as [->|?]; [|done]. exists acc. cbn. split; [done|lia].
  - destruct Hhex as [[d Hd] Hrest]. cbn [hexPrefix]. rewrite Hd.
    pose proof (hexDigit_range c d Hd).
    destruct (IH (acc * 16 + d) true Hrest) as (v & Hv & Hlo & Hhi); [lia | by left|].
    exists v. split; [done|].
    cbn [String.length]. rewrite Nat2Z.inj_succ, Z.pow_succ_r by lia.
    assert (0 < 16 ^ Z.of_nat (String.length rest)) by (apply Z.pow_pos_nonneg; lia).
    nia.
Qed.

Lemma substring_prefix_allHex n : ∀ s,
  allHex s → allHex (String.substring 0 n s) ∧ (String.length (String.substring 0 n s) ≤ n)%nat.
Proof.
  induction n as [|n IH]; intros [|c rest] Hhex; cbn; try (split; [done|lia]).
  destruct Hhex as [Hc Hrest]. destruct (IH rest Hrest). split; [done|lia].
Qed.

Lemma parseInt16_hex c rest :
  is_Some (hexDigit c) → allHex rest →
  parseInt16 (String c rest) = hexPrefix 0 false (String c rest).
Proof.
  intros [d Hd] Hrest. unfold parseInt16.
  assert (isWhiteSpace c = false) as Hws.
  { unfold isWhiteSpace. apply bool_decide_eq_false. unfold hexDigit in Hd.
    rewrite !elem_of_cons, elem_of_nil. repeat case_decide; try done; lia. }
  cbn [trimStart]. rewrite Hws.
  assert (charCode c ≠ 45 ∧ charCode c ≠ 43) as [H1 H2].
  { unfold hexDigit in Hd. repeat case_decide; try done; lia. }
  rewrite !decide_False by done. cbn [fst snd].
  assert (∀ v : option Z, (λ v, 1 * v) <$> v = v) as Hid.
  { intros [v|]; cbn; [f_equal; lia | done]. }
  destruct rest as [|c1 rest']; [apply Hid|].
  rewrite decide_False; [apply Hid|].
  intros [_ Hx]. destruct Hrest as [[d1 Hd1] _]. unfold hexDigit in Hd1.
  repeat case_decide; try done; lia.
Qed.

Lemma hashOfDigest_is_uint32 digest :
  hexDigest digest → ∃ v, hashOfDigest digest = Some v ∧ 0 ≤ v < 2 ^ 32.
Proof.
  intros [Hne Hhex]. unfold hashOfDigest.
  destruct (substring_prefix_allHex 8 digest Hhex) as [Hsub Hlen].
  destruct digest as [|c rest]; [done|]. 
  change (String.substring 0 8 (String c rest)) with (String c (String.substring 0 7 rest)) in *.
  destruct Hsub as [Hc Hrest]. rewrite parseInt16_hex by done.
  destruct (hexPrefix_allHex (String c (String.substring 0 7 rest)) 0 false) as (v & Hv & Hlo & Hhi);
    [by split | lia | by right |].
  exists v. split; [done|]. split; [lia|].
  assert (16 ^ Z.of_nat (String.length (String c (String.substring 0 7 rest))) ≤ 16 ^ 8)
    by (apply Z.pow_le_mono_r; lia).
  change (2 ^ 32) with (16 ^ 8). lia.
Qed.

(** X14. Both hash functions of the source return an unsigned 32-bit
    integer, never NaN, whenever the digest they are given is a non-empty
    string of hexadecimal digits (as [digest('hex')] returns): the value
    of its first eight digits lies in [0, 2^32). *)
Theorem digest_hashes_are_uint32 (md5Hex sha256Hex : string → string) key :
  hexDigest (md5Hex key) → hexDigest (sha256Hex key) →
  (∃ v, defaultHash md5Hex key = Some v ∧ 0 ≤ v < 2 ^ 32)
  ∧ (∃ v, customHash sha256Hex key = Some v ∧ 0 ≤ v < 2 ^ 32).
Proof.
  intros Hmd5 Hsha. split; by apply hashOfDigest_is_uint32.
Qed.

Lemma constantDigest_hexDigest key : hexDigest (constantDigest key).
Proof. split; [done|]. cbn. repeat split; by eexists. Qed.

Lemma digest_hashes_are_uint32_witness :
  hexDigest (constantDigest "k")
  ∧ (∃ v, defaultHash constantDigest "k" = Some v ∧ 0 ≤ v < 2 ^ 32)
  ∧ (∃ v, customHash constantDigest "k" = Some v ∧ 0 ≤ v < 2 ^ 32).
Proof.
  split; [exact (constantDigest_hexDigest "k")|].
  exact (digest_hashes_are_uint32 constantDigest constantDigest "k"
           (constantDigest_hexDigest "k") (constantDigest_hexDigest "k")).
Defined.

(** ** Bindings and replica keys *)

(** X15. In every reachable state a stored position is the hash of a
    replica key of the node it is bound to: whatever was added, re-added,
    overwritten by a collision or removed, the ring map never binds a
    position to a node that does not hash to it. *)
Theorem stored_position_is_replica_hash s p node :
  reachable s → ring s !! p = Some node →
  ∃ i, p = hashFunction s (replicaKey node i).
Proof.
  intros Hreach. revert s Hreach p node. apply (reachable_induction
    (λ s, ∀ p node, ring s !! p = Some node →
       ∃ i, p = hashFunction s (replicaKey node i))).
  - intros r h p node Hp. cbn in Hp. by rewrite lookup_empty in Hp.
  - intros s n w _ IH p node. rewrite addNode_ring, addNode_hashFunction.
    case_decide as Hin; [|apply IH].
    intros [= <-]. apply elem_of_replicaHashes in Hin as (i & -> & _). by exists i.
  - intros s n _ IH p node. rewrite removeNode_ring, removeNode_hashFunction.
    case_decide; [done | apply IH].
Qed.

Lemma stored_position_is_replica_hash_witness :
  reachable demoRing ∧ ring demoRing !! 3093842863 = Some "NodeB"%string
  ∧ ∃ i, 3093842863 = hashFunction demoRing (replicaKey "NodeB" i).
Proof.
  assert (ring demoRing !! 3093842863 = Some "NodeB"%string) as Hp by (by vm_compute).
  split; [exact demoRing_reachable|]. split; [exact Hp|].
  exact (stored_position_is_replica_hash demoRing _ _ demoRing_reachable Hp).
Defined.

Lemma pretty_N_go_noColon x : ∀ s, noColon s → noColon (pretty_N_go x s).
Proof.
  induction (N.lt_wf_0 x) as [x _ IH]; intros s Hs.
  destruct (decide (x = 0)%N) as [->|Hx]; [by rewrite pretty_N_go_0|].
  rewrite pretty_N_go_step by lia. apply IH.
  - apply N.div_lt; lia.
  - split; [|done]. unfold pretty_N_char. by repeat case_match.
Qed.

Lemma pretty_nat_noColon (i : nat) : noColon (pretty i).
Proof.
  unfold pretty, pretty_nat, pretty, pretty_N. case_decide; [by cbn|].
  by apply pretty_N_go_noColon.
Qed.

Lemma append_empty (s : string) : "" +:+ s = s.
Proof. reflexivity. Qed.

Lemma append_String c (a s : string) : String c a +:+ s = String c (a +:+ s).
Proof. reflexivity. Qed.

Lemma noColon_app_colon a b : ¬ noColon (a +:+ String ":"%char b).
Proof.
  induction a as [|c a IH].
  - rewrite append_empty. intros [H _]. by apply H.
  - rewrite append_String. by intros [_ ?].
Qed.

Lemma append_colon_inj a b d e :
  noColon d → noColon e →
  a +:+ String ":"%char d = b +:+ String ":"%char e → a = b ∧ d = e.
Proof.
  revert b. induction a as [|c a IH]; intros [|c' b] Hd He Heq;
    rewrite ?append_empty, ?append_String in Heq.
  - injection Heq as Heq. by subst.
  - injection Heq as _ Heq. subst d. by apply (noColon_app_colon b e) in Hd.
  - injection Heq as _ Heq. subst e. by apply (noColon_app_colon a d) in He.
  - injection Heq as -> Heq. destruct (IH b Hd He Heq) as [-> ->]. done.
Qed.

(** X16. The replica key [node:i] determines both the node and the
    index: two replica keys are the same string only for the same node
    and the same index, also when node names contain [:]. Two replicas
    can therefore share a position only through the hash function. *)
Theorem replicaKey_injective node1 i1 node2 i2 :
  replicaKey node1 i1 = replicaKey node2 i2 → node1 = node2 ∧ i1 = i2.
Proof.
  unfold replicaKey. intros Heq.
  change (node1 +:+ String ":"%char (pretty i1) = node2 +:+ String ":"%char (pretty i2)) in Heq.
  apply append_colon_inj in Heq as [-> Hi]; [|apply pretty_nat_noColon..].
  split; [done|]. by apply (inj pretty).
Qed.

Lemma replicaKey_injective_witness :
  replicaKey "a:1" 2 = replicaKey "a:1" 2 ∧ "a:1"%string = "a:1"%string ∧ 2%nat = 2%nat.
Proof.
  split; [reflexivity|].
  exact (replicaKey_injective "a:1" 2 "a:1" 2 eq_refl).
Defined.

(** ** The order of the result of [getNodes] *)

Lemma collect_seen s result j : seenAt s result j → collect s result j = result.
Proof.
  intros Hseen. unfold collect. destruct (nodeAt s j) as [x|] eqn:E; [|done].
  case_decide as H; [|done]. destruct H as [Hname Hnew].
  exfalso. apply Hnew. by apply Hseen.
Qed.

Lemma collect_cases_named s result index :
  collect s result index = result
  ∨ ∃ node, collect s result index = result ++ [node]
            ∧ node ≠ ""%string ∧ nodeAt s index = Some node.
Proof.
  unfold collect. destruct (nodeAt s index) as [node|]; [|by left].
  case_decide as H; [|by left]. right. exists node. tauto.
Qed.

Lemma seenAt_prefix s result result' j :
  result `prefix_of` result' → seenAt s result j → seenAt s result' j.
Proof.
  intros [rest ->] Hseen x Hx Hname. apply elem_of_app. left. by apply Hseen.
Qed.

Lemma foldl_collect_prefix s l : ∀ result, result `prefix_of` foldl (collect s) result l.
Proof.
  induction l as [|j l IH]; intros result; [done|].
  cbn [foldl]. etrans; [apply collect_prefix | apply IH].
Qed.

Lemma foldl_collect_seen s l : ∀ result j,
  j ∈ l ∨ seenAt s result j → seenAt s (foldl (collect s) result l) j.
Proof.
  induction l as [|i l IH]; intros result j Hj; cbn [foldl].
  - destruct Hj as [Hj|?]; [by apply elem_of_nil in Hj | done].
  - apply IH. destruct Hj as [[->|Hj]%elem_of_cons|Hj].
    + right. intros x Hx Hname. by apply collect_adds.
    + by left.
    + right. eapply seenAt_prefix; [apply collect_prefix | done].
Qed.

Lemma foldl_collect_saturated s l : ∀ result,
  (∀ j, j ∈ l → seenAt s result j) → foldl (collect s) result l = result.
Proof.
  induction l as [|i l IH]; intros result Hseen; [done|].
  cbn [foldl]. rewrite collect_seen by (apply Hseen; by left).
  apply IH. intros j Hj. apply Hseen. by right.
Qed.

Lemma foldl_collect_elem_of s l : ∀ result x,
  x ∈ foldl (collect s) result l →
  x ∈ result ∨ (x ≠ ""%string ∧ ∃ j, j ∈ l ∧ nodeAt s j = Some x).
Proof.
  induction l as [|i l IH]; intros result x Hx; cbn [foldl] in Hx; [by left|].
  destruct (IH _ _ Hx) as [Hin|(Hname & j & Hj & Hat)].
  - destruct (collect_cases_named s result i) as [E|(node & E & Hname & Hat)];
      rewrite E in Hin; [by left|].
    apply elem_of_app in Hin as [?| ->%list_elem_of_singleton]; [by left|].
    right. split; [done|]. exists i. split; [by left | done].
  - right. split; [done|]. exists j. split; [by right | done].
Qed.

Lemma foldl_collect_NoDup s l : ∀ result,
  NoDup result → NoDup (foldl (collect s) result l).
Proof.
  induction l as [|i l IH]; intros result Hnd; [done|].
  cbn [foldl]. by apply IH, collect_NoDup.
Qed.

(** The indices of [k] iterations from [index]. *)
Lemma getNodes_loop_unrolled fuel s count ringSize :
  ∀ result index res,
    (index < ringSize)%nat →
    getNodes_loop fuel s count ringSize result index = Some res →
    ∃ k, res = foldl (collect s) result
                 ((λ t, (index + t) mod ringSize)%nat <$> seq 0 k).
Proof.
  induction fuel as [|fuel IH]; intros result index res Hindex; cbn [getNodes_loop];
    case_decide as Hguard; try done.
  - intros [= <-]. by exists 0%nat.
  - intros Hres. apply IH in Hres as [k ->]; [|apply Nat.mod_upper_bound; lia].
    exists (S k). cbn [seq fmap list_fmap foldl].
    rewrite Nat.add_0_r, (Nat.mod_small index ringSize) by done. f_equal.
    rewrite <- fmap_S_seq, <- list_fmap_compose. apply list_fmap_ext.
    intros _ t _. cbn. rewrite Nat.Div0.add_mod_idemp_l. f_equal. lia.
  - intros [= <-]. by exists 0%nat.
Qed.

Lemma walkIndices_all s key j :
  (j < length (sortedKeys s))%nat → j ∈ walkIndices s key.
Proof.
  intros Hj. assert (sortedKeys s ≠ []) as Hne.
  { intros E. rewrite E in Hj. cbn in Hj. lia. }
  pose proof (startIndex_lt_length s key Hne) as Hstart.
  unfold walkIndices. set (n := length (sortedKeys s)) in *.
  set (i := startIndex s key) in *. apply list_elem_of_fmap.
  exists ((j + n - i) mod n)%nat. split; [|apply elem_of_seq; split; [lia|];
    cbn; apply Nat.mod_upper_bound; lia].
  rewrite Nat.Div0.add_mod_idemp_r.
  replace (i + (j + n - i))%nat with (j + 1 * n)%nat by lia.
  by rewrite Nat.Div0.mod_add, Nat.mod_small.
Qed.

Lemma walkIndices_bound s key j :
  j ∈ walkIndices s key → (j < length (sortedKeys s))%nat.
Proof.
  unfold walkIndices. intros (t & -> & Ht%elem_of_seq)%list_elem_of_fmap.
  apply Nat.mod_upper_bound. lia.
Qed.

(** X17. The list that [getNodes] returns follows the walk round the
    ring: it is a prefix of what the loop body collects over one
    revolution from the start index, which is the list, without
    repetition and in the order of their first position, of the
    non-empty node names met on the key list. *)
Theorem getNodes_follows_walk s fuel key count res :
  getNodes fuel s key count = Some res →
  res `prefix_of` firstRevolution s key
  ∧ NoDup (firstRevolution s key)
  ∧ ∀ x, x ∈ firstRevolution s key
         ↔ x ≠ ""%string
           ∧ ∃ j, (j < length (sortedKeys s))%nat ∧ nodeAt s j = Some x.
Proof.
  intros Hres. split; [|split].
  - unfold getNodes in Hres. case_decide as Hguard.
    { injection Hres as <-. apply prefix_nil. }
    assert (sortedKeys s ≠ []) as Hne.
    { intros E. apply Hguard. left. by rewrite E. }
    pose proof (startIndex_lt_length s key Hne) as Hstart.
    apply getNodes_loop_unrolled in Hres as [k ->]; [|done].
    unfold firstRevolution, walkIndices.
    set (n := length (sortedKeys s)) in *.
    set (f := (λ t, (startIndex s key + t) mod n)%nat).
    destruct (decide (k ≤ n)%nat) as [Hk|Hk].
    + assert (seq 0 n = seq 0 k ++ seq (0 + k) (n - k)) as ->
        by (rewrite <- seq_app; f_equal; lia).
      rewrite fmap_app, foldl_app. apply foldl_collect_prefix.
    + assert (seq 0 k = seq 0 n ++ seq (0 + n) (k - n)) as ->
        by (rewrite <- seq_app; f_equal; lia).
      rewrite fmap_app, foldl_app.
      rewrite foldl_collect_saturated; [done|].
      intros j (t & -> & _)%list_elem_of_fmap.
      apply foldl_collect_seen. left. apply (walkIndices_all s key).
      apply Nat.mod_upper_bound. unfold n in *. lia.
  - apply foldl_collect_NoDup. constructor.
  - intros x. split.
    + intros [Hx|(Hname & j & Hj & Hat)]%foldl_collect_elem_of;
        [by apply elem_of_nil in Hx|].
      split; [done|]. exists j. split; [by eapply walkIndices_bound | done].
    + intros (Hname & j & Hj & Hat).
      apply (foldl_collect_seen s (walkIndices s key) [] j); [|done..].
      left. by apply walkIndices_all.
Qed.

Lemma getNodes_follows_walk_witness :
  getNodes 18 demoRing "myKey2" 2 = Some ["NodeA"; "NodeB"]%string
  ∧ ["NodeA"; "NodeB"]%string `prefix_of` firstRevolution demoRing "myKey2"
  ∧ firstRevolution demoRing "myKey2" = ["NodeA"; "NodeB"; "NodeC"]%string.
Proof.
  assert (getNodes 18 demoRing "myKey2" 2 = Some ["NodeA"; "NodeB"]%string) as Hrun
    by (by vm_compute).
  split; [exact Hrun|].
  split; [exact (proj1 (getNodes_follows_walk demoRing 18 "myKey2" 2 _ Hrun))|].
  by vm_compute.
Defined.

(** ** What [removeNode] deletes *)

(** X18. On a ring built without adding a node that was already in the
    weight table, and when no two replica keys hashed by the history and
    by the removal collide, [removeNode node] deletes from the ring map
    the positions bound to [node] and nothing else. *)
Theorem removeNode_deletes_exactly_own_positions r h ops node :
  freshAdds (constructor r h) ops →
  collisionFree h (touched (constructor r h) (ops ++ [RemoveNode node])) →
  ring (removeNode (run (constructor r h) ops) node)
  = filter (λ kv, kv.2 ≠ node) (ring (run (constructor r h) ops)).
Proof.
  intros Hfresh Hfree. set (s := run (constructor r h) ops).
  apply collisionFree_injectiveOn in Hfree. rewrite touched_app in Hfree. fold s in Hfree.
  assert (owned s) as Hown by (by apply owned_run; [apply owned_constructor|]).
  assert (hashFunction s = h) as Hh by apply run_hashFunction.
  apply map_eq. intros p. rewrite removeNode_ring.
  destruct (ring s !! p) as [n|] eqn:E.
  2: { rewrite (proj2 (map_lookup_filter_None _ _ _)); [by case_decide|]. left. done. }
  destruct (Hown p n E) as (w & Hw & (j & Hpj & Hj)%elem_of_replicaHashes).
  case_decide as Hin.
  - symmetry. apply map_lookup_filter_None. right. intros x Hx. cbn.
    rewrite E in Hx. injection Hx as <-. intros Hne. apply Hne.
    apply elem_of_replicaHashes in Hin as (i & Hpi & Hi).
    assert ((n, j) = (node, i)) as Heq; [|by injection Heq].
    apply Hfree.
    + rewrite elem_of_app. left.
      destruct (liveKey_run ops (constructor r h) (n, j)) as [Hlive|?]; [| |done].
      * by exists w.
      * by apply liveKey_constructor in Hlive.
    + rewrite elem_of_app. right. cbn [touched]. rewrite app_nil_r.
      by apply elem_of_opKeys_remove.
    + unfold replicaHash in Hpi, Hpj. rewrite Hh in Hpi, Hpj. cbn. congruence.
  - symmetry. apply map_lookup_filter_Some. split; [done|]. cbn. intros ->.
    apply Hin. destruct (decide (w = 0)) as [->|Hne].
    + unfold iterations in Hj. replace (Z.to_nat (numberOfReplicas s * 0)) with 0%nat in Hj
        by lia. by apply elem_of_nil in Hj.
    + rewrite (recordedWeight_present s node w) by done.
      apply elem_of_replicaHashes. eauto.
Qed.

Example demoOps_remove_collisionFree :
  collisionFree polyHash
    (touched (constructor 3 polyHash) (demoOps ++ [RemoveNode "NodeB"])).
Proof. apply (bool_decide_unpack _). by vm_compute. Qed.

Lemma removeNode_deletes_exactly_own_positions_witness :
  freshAdds (constructor 3 polyHash) demoOps
  ∧ collisionFree polyHash
      (touched (constructor 3 polyHash) (demoOps ++ [RemoveNode "NodeB"]))
  ∧ ring (removeNode (run (constructor 3 polyHash) demoOps) "NodeB")
    = filter (λ kv, kv.2 ≠ "NodeB"%string) (ring (run (constructor 3 polyHash) demoOps)).
Proof.
  split; [exact demoOps_freshAdds|]. split; [exact demoOps_remove_collisionFree|].
  exact (removeNode_deletes_exactly_own_positions 3 polyHash demoOps "NodeB"
           demoOps_freshAdds demoOps_remove_collisionFree).
Defined.

(** ** The usage demo *)

Lemma demoOps_freshAdds_any r h : freshAdds (constructor r h) demoOps.
Proof.
  unfold demoOps. cbn [freshAdds apply]. rewrite !addNode_weights.
  cbn [weights constructor]. repeat split; by simplify_map_eq.
Qed.

Lemma demoOps_present h p node :
  owned (run (constructor 3 h) demoOps) →
  ring (run (constructor 3 h) demoOps) !! p = Some node →
  node ∈ ["NodeA"; "NodeB"; "NodeC"]%string.
Proof.
  intros Hown Hp. destruct (Hown p node Hp) as (w & Hw & _).
  rewrite demoOps_weights in Hw. clear Hown Hp.
  apply lookup_insert_Some in Hw as [[<- _]|[_ Hw]]; [by right; right; left|].
  apply lookup_insert_Some in Hw as [[<- _]|[_ Hw]]; [by right; left|].
  apply lookup_insert_Some in Hw as [[<- _]|[_ Hw]]; [by left|].
  by rewrite lookup_empty in Hw.
Qed.

Lemma demo_weights_without_NodeB (node : string) (w : Z) :
  delete "NodeB"%string
    (<["NodeC"%string := 3]> (<["NodeB"%string := 1]>
       (<["NodeA"%string := 2]> (∅ : gmap string Z))))
    !! node = Some w →
  node ∈ ["NodeA"; "NodeC"]%string.
Proof.
  intros [Hne Hw]%lookup_delete_Some.
  apply lookup_insert_Some in Hw as [[<- _]|[_ Hw]]; [by right; left|].
  apply lookup_insert_Some in Hw as [[<- _]|[_ Hw]]; [done|].
  apply lookup_insert_Some in Hw as [[<- _]|[_ Hw]]; [by left|].
  by rewrite lookup_empty in Hw.
Qed.

(** X19. For every hash function under which no two of the demo's
    eighteen replica keys collide, the usage demo prints a node among
    NodeA, NodeB and NodeC, then a list of exactly two different nodes
    among them (its [getNodes] call returns within eighteen iterations),
    and, after [removeNode('NodeB')], one of NodeA and NodeC. *)
Theorem demoScript_prints h :
  collisionFree h (touched (constructor 3 h) demoOps) →
  ∃ node1 nodes node3,
    demoScript h 18 = (Some node1, Some nodes, Some node3)
    ∧ node1 ∈ ["NodeA"; "NodeB"; "NodeC"]%string
    ∧ length nodes = 2%nat ∧ NoDup nodes
    ∧ (∀ x, x ∈ nodes → x ∈ ["NodeA"; "NodeB"; "NodeC"]%string)
    ∧ node3 ∈ ["NodeA"; "NodeC"]%string.
Proof.
  intros Hfree. unfold demoScript.
  change (addNode (addNode (addNode (constructor 3 h) "NodeA" 2) "NodeB" 1) "NodeC" 3)
    with (run (constructor 3 h) demoOps).
  set (s := run (constructor 3 h) demoOps).
  assert (reachable s) as Hreach by (by exists 3, h, demoOps).
  destruct (exact_run demoOps (constructor 3 h)) as (Hown & Hcomp & Hinj).
  { apply owned_constructor. }
  { apply complete_constructor. }
  { apply demoOps_freshAdds_any. }
  { apply collisionFree_injectiveOn in Hfree. intros a b Ha Hb.
    cbn [hashFunction constructor]. apply Hfree.
    - destruct Ha as [Ha|Ha]; [by apply liveKey_constructor in Ha | done].
    - destruct Hb as [Hb|Hb]; [by apply liveKey_constructor in Hb | done]. }
  fold s in Hown, Hcomp, Hinj. cbn [hashFunction constructor] in Hinj.
  assert (weights s = <["NodeC"%string := 3]>
            (<["NodeB"%string := 1]> (<["NodeA"%string := 2]> ∅))) as Hweights
    by apply demoOps_weights.
  assert (numberOfReplicas s = 3) as Hr by apply run_numberOfReplicas.
  assert (hashFunction s = h) as Hh by apply run_hashFunction.
  assert (∀ n w, weights s !! n = Some w → 0 < w → liveKey s (n, 0%nat)) as Hlive.
  { intros n w Hw Hpos. exists w. split; [done|]. rewrite Hr. unfold iterations.
    apply elem_of_seq. cbn. lia. }
  assert (liveKey s ("NodeA"%string, 0%nat)) as HliveA
    by (apply (Hlive _ 2); [by rewrite Hweights | lia]).
  assert (liveKey s ("NodeC"%string, 0%nat)) as HliveC
    by (apply (Hlive _ 3); [by rewrite Hweights | lia]).
  pose proof (Hcomp _ HliveA) as HA. pose proof (Hcomp _ HliveC) as HC.
  cbn [fst snd] in HA, HC.
  assert (ring s ≠ ∅) as Hne.
  { intros E. by rewrite E, lookup_empty in HA. }
  (* the first lookup *)
  destruct (getNode_is_Some s "myKey1" Hreach Hne) as (p1 & node1 & Hp1 & Hget1).
  (* the two nodes *)
  destruct (getNodes_returns s "myKey2" 2 ["NodeA"; "NodeC"]%string) as [nodes Hnodes].
  { apply (bool_decide_unpack _). by vm_compute. }
  { intros x Hx. assert (x ≠ ""%string ∧ x ∈ ringNodes s) as [Hname Hin].
    { apply elem_of_cons in Hx as [->|Hx]; [|apply list_elem_of_singleton in Hx as ->].
      - split; [done|]. apply elem_of_map_img. eauto.
      - split; [done|]. apply elem_of_map_img. eauto. }
    split; [done | by apply ringNodes_on_key_list]. }
  { left. cbn. lia. }
  assert (length (sortedKeys s) = 18%nat) as Hlen by apply demoOps_sortedKeys_length.
  rewrite Hlen in Hnodes.
  destruct (getNodes_result _ _ _ _ _ Hnodes) as (Hnd & _ & Hbound).
  assert (length nodes = 2%nat) as Htwo.
  { revert Hnodes. unfold getNodes. rewrite Hlen, decide_False by lia.
    intros Hloop%getNodes_loop_length; cbn; lia. }
  (* after the removal *)
  set (s' := removeNode s "NodeB").
  assert (reachable s') as Hreach' by apply (reachable_apply s (RemoveNode "NodeB") Hreach).
  assert (owned s') as Hown' by (by apply owned_removeNode).
  assert (ring s' !! replicaHash s "NodeA" 0 = Some "NodeA"%string) as HA'.
  { unfold s'. rewrite removeNode_ring, decide_False; [done|].
    intros (i & Heq & Hi)%elem_of_replicaHashes.
    assert (("NodeA"%string, 0%nat) = ("NodeB"%string, i)) as [=].
    apply Hinj; [done | | by rewrite <- Hh].
    exists 1. split; [by rewrite Hweights|].
    revert Hi. unfold recordedWeight. by rewrite Hweights. }
  assert (ring s' ≠ ∅) as Hne'.
  { intros E. by rewrite E, lookup_empty in HA'. }
  destruct (getNode_is_Some s' "myKey1" Hreach' Hne') as (p3 & node3 & Hp3 & Hget3).
  exists node1, nodes, node3. rewrite Hget1, Hnodes. fold s'. rewrite Hget3.
  split; [done|]. split; [by eapply demoOps_present|].
  split; [done|]. split; [done|]. split.
  - intros x [p Hp]%Hbound. by eapply demoOps_present.
  - destruct (Hown' p3 node3 Hp3) as (w & Hw & _).
    unfold s' in Hw. rewrite removeNode_weights, Hweights in Hw.
    by eapply demo_weights_without_NodeB.
Qed.

Lemma demoScript_prints_witness :
  collisionFree polyHash (touched (constructor 3 polyHash) demoOps)
  ∧ demoScript polyHash 18
    = (Some "NodeA", Some ["NodeA"; "NodeB"], Some "NodeA")%string
  ∧ ∃ node1 nodes node3,
      demoScript polyHash 18 = (Some node1, Some nodes, Some node3)
      ∧ node1 ∈ ["NodeA"; "NodeB"; "NodeC"]%string
      ∧ length nodes = 2%nat ∧ NoDup nodes
      ∧ (∀ x, x ∈ nodes → x ∈ ["NodeA"; "NodeB"; "NodeC"]%string)
      ∧ node3 ∈ ["NodeA"; "NodeC"]%string.
Proof.
  split; [exact demoOps_collisionFree|]. split; [by vm_compute|].
  exact (demoScript_prints polyHash demoOps_collisionFree).
Defined.
